(** * multipart-stream.js: an incremental multipart parser

    A shallow embedding of [src/multipart-stream.js] and the properties of
    its specification.

    Bytes and UTF-16 code units are integers ([Z]); a [Uint8Array] and a
    JavaScript string are lists of them.  JavaScript numbers that the
    program computes with ([pos], [contentLength], indices) are integers
    here: every one of them is produced by integer operations or by
    [parseInt], and they are only added and compared with buffer lengths,
    so exact integers decide every comparison as the doubles do.  The one
    number that is not an integer is the NaN that [parseInt] can give:
    [contentLength] holds it when 'missing/invalid part Content-Length' is
    thrown. *)

From Stdlib Require Import ZArith List Lia Bool String Ascii.
Import ListNotations.
Local Open Scope Z_scope.

(** ** The JavaScript platform operations the program calls *)

Module JS.

Definition Uint8Array := list Z.
Definition JSString := list Z.

Definition len {A : Type} (l : list A) : Z := Z.of_nat (List.length l).

(** An ASCII literal as a JavaScript string. *)
Definition lit (s : string) : JSString :=
  map (fun a => Z.of_N (N_of_ascii a)) (list_ascii_of_string s).

Definition CR : Z := 13.
Definition LF : Z := 10.

(** [a[i]]: [None] is [undefined], the value of an index out of range. *)
Definition at_ (a : list Z) (i : Z) : option Z :=
  if i <? 0 then None else nth_error a (Z.to_nat i).

(** [x == c] for an element read with [at_] and a number [c]. *)
Definition is_code (x : option Z) (c : Z) : bool :=
  match x with Some y => y =? c | None => false end.

(** Relative index of [TypedArray.prototype.slice]: a negative index counts
    from the end, and the result is clamped to [0, n]. *)
Definition relIndex (n i : Z) : Z :=
  if i <? 0 then Z.max (n + i) 0 else Z.min i n.

(** [a.slice(s, e)] *)
Definition slice (a : Uint8Array) (s e : Z) : Uint8Array :=
  let k := relIndex (len a) s in
  let final := relIndex (len a) e in
  firstn (Z.to_nat (final - k)) (skipn (Z.to_nat k) a).

(** [a.slice(s)] *)
Definition sliceFrom (a : Uint8Array) (s : Z) : Uint8Array :=
  slice a s (len a).

Fixpoint indexOfAux (x : Z) (a : list Z) (k : Z) : Z :=
  match a with
  | [] => -1
  | y :: r => if y =? x then k else indexOfAux x r (k + 1)
  end.

(** [a.indexOf(x, from)] of a typed array. *)
Definition indexOf (a : Uint8Array) (x from : Z) : Z :=
  let k := if from <? 0 then Z.max (len a + from) 0 else from in
  indexOfAux x (skipn (Z.to_nat k) a) k.

(** [new Uint8Array(n)]: [n] zero bytes; [None] is the RangeError of a
    negative length. *)
Definition newUint8Array (n : Z) : option Uint8Array :=
  if n <? 0 then None else Some (repeat 0 (Z.to_nat n)).

(** [target.set(src, offset)]; [None] is the RangeError of a source that
    does not fit. *)
Definition set (target src : Uint8Array) (offset : Z) : option Uint8Array :=
  if (offset <? 0) || (len target <? offset + len src) then None
  else Some (firstn (Z.to_nat offset) target ++ src
             ++ skipn (Z.to_nat (offset + len src)) target).

(** *** Strings *)

Fixpoint prefixb (p s : list Z) : bool :=
  match p, s with
  | [], _ => true
  | x :: p', y :: s' => (x =? y) && prefixb p' s'
  | _ :: _, [] => false
  end.

(** [s.startsWith(p)] *)
Definition startsWith (s p : JSString) : bool := prefixb p s.

Fixpoint strIndexOfAux (p s : list Z) (k : Z) : Z :=
  if prefixb p s then k
  else match s with
       | [] => -1
       | _ :: s' => strIndexOfAux p s' (k + 1)
       end.

(** [Math.min(Math.max(i, 0), n)] *)
Definition clamp (n i : Z) : Z := Z.min (Z.max i 0) n.

(** [s.indexOf(p, from)] of a string. *)
Definition strIndexOf (s p : JSString) (from : Z) : Z :=
  let k := clamp (len s) from in
  strIndexOfAux p (skipn (Z.to_nat k) s) k.

(** [s.substring(a, b)]: both ends are clamped to [0, length] and swapped
    when out of order. *)
Definition substring (s : JSString) (a b : Z) : JSString :=
  let fs := clamp (len s) a in
  let fe := clamp (len s) b in
  let from := Z.min fs fe in
  let to := Z.max fs fe in
  firstn (Z.to_nat (to - from)) (skipn (Z.to_nat from) s).

(** [s.substring(a)] *)
Definition substringFrom (s : JSString) (a : Z) : JSString :=
  substring s a (len s).

Definition eqb_list (a b : list Z) : bool :=
  if list_eq_dec Z.eq_dec a b then true else false.

(** *** [TextEncoder.encode]: UTF-8 of a string, a lone surrogate encoded
    as U+FFFD. *)

Definition utf8_of_cp (c : Z) : list Z :=
  if c <? 128 then [c]
  else if c <? 2048 then [Z.lor 192 (Z.shiftr c 6); Z.lor 128 (Z.land c 63)]
  else if c <? 65536 then
    [Z.lor 224 (Z.shiftr c 12); Z.lor 128 (Z.land (Z.shiftr c 6) 63);
     Z.lor 128 (Z.land c 63)]
  else
    [Z.lor 240 (Z.shiftr c 18); Z.lor 128 (Z.land (Z.shiftr c 12) 63);
     Z.lor 128 (Z.land (Z.shiftr c 6) 63); Z.lor 128 (Z.land c 63)].

Definition is_high (u : Z) : bool := (55296 <=? u) && (u <=? 56319).
Definition is_low (u : Z) : bool := (56320 <=? u) && (u <=? 57343).

Fixpoint encode (s : JSString) : Uint8Array :=
  match s with
  | [] => []
  | u :: r =>
      if is_high u then
        match r with
        | v :: r' =>
            if is_low v
            then utf8_of_cp (65536 + (u - 55296) * 1024 + (v - 56320))
                 ++ encode r'
            else utf8_of_cp 65533 ++ encode r
        | [] => utf8_of_cp 65533
        end
      else if is_low u then utf8_of_cp 65533 ++ encode r
      else utf8_of_cp u ++ encode r
  end.

(** *** [TextDecoder('utf-8').decode]: the UTF-8 decoder of the Encoding
    standard, in replacement mode, with the byte order mark removed. *)

Record Utf8State := {
  cp : Z;          (* code point being assembled *)
  needed : Z;      (* bytes needed *)
  seen : Z;        (* bytes seen *)
  lower : Z;       (* lower boundary of the next continuation byte *)
  upper : Z        (* upper boundary *)
}.

Definition utf8_init : Utf8State :=
  {| cp := 0; needed := 0; seen := 0; lower := 128; upper := 191 |}.

(** A byte read when no bytes are needed: the code points it yields and the
    next state. *)
Definition utf8_lead (b : Z) : list Z * Utf8State :=
  if b <=? 127 then ([b], utf8_init)
  else if (194 <=? b) && (b <=? 223) then
    ([], {| cp := Z.land b 31; needed := 1; seen := 0;
            lower := 128; upper := 191 |})
  else if (224 <=? b) && (b <=? 239) then
    ([], {| cp := Z.land b 15; needed := 2; seen := 0;
            lower := if b =? 224 then 160 else 128;
            upper := if b =? 237 then 159 else 191 |})
  else if (240 <=? b) && (b <=? 244) then
    ([], {| cp := Z.land b 7; needed := 3; seen := 0;
            lower := if b =? 240 then 144 else 128;
            upper := if b =? 244 then 143 else 191 |})
  else ([65533], utf8_init).

Definition utf8_step (st : Utf8State) (b : Z) : list Z * Utf8State :=
  if needed st =? 0 then utf8_lead b
  else if negb ((lower st <=? b) && (b <=? upper st)) then
    (* the byte is put back and read again with a fresh state *)
    let '(out, st') := utf8_lead b in (65533 :: out, st')
  else
    let c := Z.lor (Z.shiftl (cp st) 6) (Z.land b 63) in
    if seen st + 1 =? needed st then ([c], utf8_init)
    else ([], {| cp := c; needed := needed st; seen := seen st + 1;
                 lower := 128; upper := 191 |}).

Fixpoint utf8_run (st : Utf8State) (bs : list Z) : list Z :=
  match bs with
  | [] => if needed st =? 0 then [] else [65533]
  | b :: r => let '(out, st') := utf8_step st b in out ++ utf8_run st' r
  end.

(** A code point as UTF-16 code units. *)
Definition utf16_of_cp (c : Z) : list Z :=
  if c <? 65536 then [c]
  else [55296 + Z.shiftr (c - 65536) 10; 56320 + Z.land (c - 65536) 1023].

Definition stripBOM (cps : list Z) : list Z :=
  match cps with
  | c :: r => if c =? 65279 then r else cps
  | [] => []
  end.

Definition decode (bs : Uint8Array) : JSString :=
  flat_map utf16_of_cp (stripBOM (utf8_run utf8_init bs)).

(** *** [parseInt(s, 10)]; [None] is NaN. *)

Definition isStrWhiteSpace (c : Z) : bool :=
  ((9 <=? c) && (c <=? 13)) || (c =? 32) || (c =? 160) || (c =? 5760)
  || ((8192 <=? c) && (c <=? 8202)) || (c =? 8232) || (c =? 8233)
  || (c =? 8239) || (c =? 8287) || (c =? 12288) || (c =? 65279).

Fixpoint trimStart (s : JSString) : JSString :=
  match s with
  | c :: r => if isStrWhiteSpace c then trimStart r else s
  | [] => []
  end.

Definition isDigit (c : Z) : bool := (48 <=? c) && (c <=? 57).

(** The value of the longest prefix of decimal digits, [acc] being the
    value of the digits already read; [None] when there is no digit. *)
Fixpoint digits (s : JSString) (acc : option Z) : option Z :=
  match s with
  | c :: r =>
      if isDigit c
      then digits r (Some (10 * match acc with Some a => a | None => 0 end
                           + (c - 48)))
      else acc
  | [] => acc
  end.

Definition parseInt10 (s : JSString) : option Z :=
  match trimStart s with
  | [] => None
  | c :: r =>
      if c =? 45 then option_map Z.opp (digits r None)
      else if c =? 43 then digits r None
      else digits (c :: r) None
  end.

End JS.

(** ** The [Headers] class of the Fetch standard

    A [Headers] object is represented by the pairs that have been appended
    to it, in order, which determine all that can be read from it.  [append]
    converts both arguments to byte strings, normalizes the value and
    validates the pair, raising a TypeError ([None]) when one of these
    fails; [get] combines the values of every entry whose name matches,
    letter case ignored. *)

Module Headers.
Import JS.

Definition t := list (JSString * JSString).

(** [new Headers()] *)
Definition new : t := [].

Definition isByteString (s : JSString) : bool :=
  forallb (fun c => (0 <=? c) && (c <=? 255)) s.

Definition isAlnum (c : Z) : bool :=
  ((48 <=? c) && (c <=? 57)) || ((65 <=? c) && (c <=? 90))
  || ((97 <=? c) && (c <=? 122)).

(** The token characters of a header name. *)
Definition isTchar (c : Z) : bool :=
  isAlnum c || existsb (Z.eqb c) (lit "!#$%&'*+-.^_`|~").

Definition isHeaderName (n : JSString) : bool :=
  match n with [] => false | _ => forallb isTchar n end.

Definition isHTTPWhitespace (c : Z) : bool :=
  (c =? 9) || (c =? 10) || (c =? 13) || (c =? 32).

Fixpoint stripLeading (s : JSString) : JSString :=
  match s with
  | c :: r => if isHTTPWhitespace c then stripLeading r else s
  | [] => []
  end.

(** Removal of leading and trailing HTTP whitespace. *)
Definition normalize (v : JSString) : JSString :=
  rev (stripLeading (rev (stripLeading v))).

(** A normalized value is a header value when it has no NUL, LF or CR. *)
Definition isHeaderValue (v : JSString) : bool :=
  forallb (fun c => negb ((c =? 0) || (c =? 10) || (c =? 13))) v.

(** [h.append(name, value)] *)
Definition append (h : t) (name value : JSString) : option t :=
  if isByteString name && isByteString value then
    let v := normalize value in
    if isHeaderName name && isHeaderValue v
    then Some (h ++ [(name, v)])
    else None
  else None.

Definition lowercase (c : Z) : Z :=
  if (65 <=? c) && (c <=? 90) then c + 32 else c.

Definition sameName (a b : JSString) : bool :=
  eqb_list (map lowercase a) (map lowercase b).

Fixpoint join (vs : list JSString) : JSString :=
  match vs with
  | [] => []
  | [v] => v
  | v :: r => v ++ [44; 32] ++ join r
  end.

(** All the values recorded for [name], in order. *)
Definition getAll (h : t) (name : JSString) : list JSString :=
  map snd (filter (fun e => sameName (fst e) name) h).

(** [h.get(name)], for a valid [name]; [None] is [null]. *)
Definition get (h : t) (name : JSString) : option JSString :=
  match getAll h name with
  | [] => None
  | vs => Some (join vs)
  end.

End Headers.

(** ** The parser *)

Module Parser.
Import JS.

Definition blankLine : Uint8Array := encode [CR; LF].

Inductive State := STATE_BOUNDARY | STATE_HEADERS | STATE_BODY.

(** The errors that end the output stream.  The first six are the [Error]s
    the program raises, named as the specification names them; the last two
    are raised by the platform. *)
Inductive Error :=
| InvalidContentType           (* 'Invalid content type for multipart stream' *)
| MalformedBoundary            (* 'bad part boundary' *)
| MalformedHeaderLine_CR       (* 'bad part header line (CR without NL)' *)
| MalformedHeaderLine_colon    (* 'bad part header line (no ": ")' *)
| InvalidContentLength         (* 'missing/invalid part Content-Length' *)
| TruncatedStream              (* 'multipart stream ended mid-part' *)
| TypeError
| RangeError.

(** [getBoundary(contentType)]; [None] is [null]. *)
Definition MULTIPART_TYPE : JSString := lit "multipart/".
Definition BOUNDARY_PARAM : JSString := lit "; boundary=".

Definition getBoundary (contentType : JSString) : option JSString :=
  if negb (startsWith contentType MULTIPART_TYPE) then None
  else
    let i := strIndexOf contentType BOUNDARY_PARAM (len MULTIPART_TYPE) in
    if i =? -1 then None
    else Some (substringFrom contentType (i + len BOUNDARY_PARAM)).

Fixpoint compareElems (a b : Uint8Array) : bool :=
  match a, b with
  | x :: a', y :: b' => if negb (x =? y) then false else compareElems a' b'
  | _, _ => true
  end.

(** [compareArrays(a, b)] *)
Definition compareArrays (a b : Uint8Array) : bool :=
  if negb (len a =? len b) then false else compareElems a b.

(** An emitted part: [{headers: headers, body: body}]. *)
Record Part := {
  part_headers : option Headers.t;
  part_body : Uint8Array
}.

(** The variables of [start], and the queue of the stream controller. *)
Record PState := {
  pos : Z;
  buf : Uint8Array;
  state : State;
  headers : option Headers.t;     (* [None] is [null] *)
  contentLength : option (option Z);
                                  (* [None] is [null], [Some None] is NaN *)
  queue : list Part               (* the parts enqueued so far *)
}.

Definition initial : PState :=
  {| pos := 0; buf := []; state := STATE_BOUNDARY; headers := None;
     contentLength := None; queue := [] |}.

Definition set_pos (s : PState) (p : Z) : PState :=
  {| pos := p; buf := buf s; state := state s; headers := headers s;
     contentLength := contentLength s; queue := queue s |}.

(** One pass of the [switch] inside [while (true)]: the loop goes on
    ([Continue]), [processBuf] returns, or it throws. *)
Inductive Step :=
| Continue (s : PState)
| Return (s : PState)
| Throw (e : Error) (s : PState).

Section WithBoundary.

Variables midBoundary endBoundary : Uint8Array.

(** The loop over blank lines.  Every turn needs two more buffered bytes, so
    [n] turns are enough when [n] is at least the number of bytes left. *)
Fixpoint skipBlank (n : nat) (b : Uint8Array) (p : Z) : Z :=
  match n with
  | O => p
  | S n' =>
      if (len b >=? p + len blankLine)
         && compareArrays (slice b p (p + len blankLine)) blankLine
      then skipBlank n' b (p + len blankLine)
      else p
  end.

Definition stepBoundary (s : PState) : Step :=
  let p := skipBlank (Z.to_nat (len (buf s) - pos s)) (buf s) (pos s) in
  let s := set_pos s p in
  if len (buf s) <? p + len midBoundary then Return s
  else if negb (compareArrays (slice (buf s) p (p + len midBoundary))
                              midBoundary) then
    if compareArrays (slice (buf s) p (p + len endBoundary)) endBoundary
    then Return {| pos := p + len endBoundary; buf := buf s;
                   state := STATE_BOUNDARY; headers := headers s;
                   contentLength := contentLength s; queue := queue s |}
    else Throw MalformedBoundary s
  else Continue {| pos := p + len midBoundary; buf := buf s;
                   state := STATE_HEADERS; headers := Some Headers.new;
                   contentLength := contentLength s; queue := queue s |}.

(** [parseInt(headers.get('Content-Length'), 10)]: a [null] is converted to
    the string "null" and parses to NaN ([None]). *)
Definition parseContentLength (h : Headers.t) : option Z :=
  parseInt10 (match Headers.get h (lit "Content-Length") with
              | Some v => v
              | None => lit "null"
              end).

Definition stepHeaders (s : PState) : Step :=
  let cr := indexOf (buf s) CR (pos s) in
  if (cr =? -1) || (len (buf s) =? cr + 1) then Return s
  else if negb (is_code (at_ (buf s) (cr + 1)) LF)
  then Throw MalformedHeaderLine_CR s
  else
    let line := decode (slice (buf s) (pos s) cr) in
    let s := set_pos s (cr + 2) in
    if eqb_list line [] then
      match option_map parseContentLength (headers s) with
      | None => Throw TypeError s          (* [get] of [null] *)
      | Some None =>                       (* assigned, then [isNaN] *)
          Throw InvalidContentLength
                {| pos := pos s; buf := buf s; state := state s;
                   headers := headers s; contentLength := Some None;
                   queue := queue s |}
      | Some (Some n) =>
          Continue {| pos := pos s; buf := buf s; state := STATE_BODY;
                      headers := headers s; contentLength := Some (Some n);
                      queue := queue s |}
      end
    else
      let colon := strIndexOf line (lit ":") 0 in
      let name := substring line 0 colon in
      if (colon =? len line) || negb (is_code (at_ line (colon + 1)) 32)
      then Throw MalformedHeaderLine_colon s
      else
        let value := substringFrom line (colon + 2) in
        match headers s with
        | None => Throw TypeError s        (* [append] of [null] *)
        | Some h =>
            match Headers.append h name value with
            | None => Throw TypeError s
            | Some h' =>
                Continue {| pos := pos s; buf := buf s; state := state s;
                            headers := Some h';
                            contentLength := contentLength s;
                            queue := queue s |}
            end
        end.

(** A [null] used as a number is 0; NaN ([None]) stays NaN. *)
Definition toNumber (n : option (option Z)) : option Z :=
  match n with Some x => x | None => Some 0 end.

(** With NaN as [contentLength] no comparison holds, the body is
    [buf.slice(pos, NaN)], which ends at index 0, and [pos += NaN] leaves
    NaN in [pos], which the integer [pos] of this embedding cannot hold: it
    is left as it is.  STATE_BODY is entered only past the [isNaN] test of
    line 126, so no pass of a run starts there with NaN
    ([Extra.step_consistent]). *)
Definition stepBody (s : PState) : Step :=
  match toNumber (contentLength s) with
  | Some n =>
      if len (buf s) <? pos s + n then Return s
      else
        let body := slice (buf s) (pos s) (pos s + n) in
        Continue {| pos := pos s + n; buf := buf s; state := STATE_BOUNDARY;
                    headers := None; contentLength := None;
                    queue := queue s
                             ++ [{| part_headers := headers s;
                                    part_body := body |}] |}
  | None =>
      Continue {| pos := pos s; buf := buf s; state := STATE_BOUNDARY;
                  headers := None; contentLength := None;
                  queue := queue s
                           ++ [{| part_headers := headers s;
                                  part_body := slice (buf s) (pos s) 0 |}] |}
  end.

Definition step (s : PState) : Step :=
  match state s with
  | STATE_BOUNDARY => stepBoundary s
  | STATE_HEADERS => stepHeaders s
  | STATE_BODY => stepBody s
  end.

(** The result of [processBuf]: it returns, throws, or is still looping when
    the fuel is spent. *)
Inductive Drain :=
| Returned (s : PState)
| Threw (e : Error) (s : PState)
| Looping (s : PState).

(** [processBuf()], at most [fuel] passes of its loop. *)
Fixpoint processBuf (fuel : nat) (s : PState) : Drain :=
  match fuel with
  | O => Looping s
  | S fuel' =>
      match step s with
      | Continue s' => processBuf fuel' s'
      | Return s' => Returned s'
      | Throw e s' => Threw e s'
      end
  end.

(** The loop that trims newline bytes at the end of the source; [n] bounds
    [buffered]. *)
Fixpoint trimNewlines (n : nat) (b : Uint8Array) (p buffered : Z) : Z * Z :=
  match n with
  | O => (p, buffered)
  | S n' =>
      if (buffered >? 0)
         && existsb (fun c => is_code (at_ b p) c) [10; 13]
      then trimNewlines n' b (p + 1) (buffered - 1)
      else (p, buffered)
  end.

(** How the output stream ends, or that the parser is still looping. *)
Inductive Outcome :=
| Closed
| Errored (e : Error)
| Hung.

Record Result := {
  emitted : list Part;    (* the parts enqueued, in order *)
  outcome : Outcome;
  reads : nat;            (* the number of [reader.read()] calls issued *)
  final : PState          (* the variables when the stream ended *)
}.

(** [buf] after a new chunk [value] has been added to the unprocessed
    bytes. *)
Definition addChunk (s : PState) (value : Uint8Array) : option Uint8Array :=
  let buffered := len (buf s) - pos s in
  if buffered =? 0 then Some value
  else
    let newLen := buffered + len value in
    match newUint8Array newLen with
    | None => None
    | Some newBuf =>
        match set newBuf (sliceFrom (buf s) (pos s)) 0 with
        | None => None
        | Some newBuf => set newBuf value buffered
        end
    end.

(** The [while (true)] loop of [start]: the source delivers [chunks], one
    per read, and then reports that it is done. *)
Fixpoint mainLoop (fuel : nat) (chunks : list Uint8Array) (s : PState)
  (nreads : nat) : Result :=
  let nreads := S nreads in
  match chunks with
  | [] =>
      let buffered := len (buf s) - pos s in
      let '(p, buffered) :=
        trimNewlines (Z.to_nat buffered) (buf s) (pos s) buffered in
      let s := set_pos s p in
      {| emitted := queue s;
         outcome :=
           if match state s with STATE_BOUNDARY => false | _ => true end
              || (buffered >? 0)
           then Errored TruncatedStream else Closed;
         reads := nreads; final := s |}
  | value :: rest =>
      match addChunk s value with
      | None => {| emitted := queue s; outcome := Errored RangeError;
                   reads := nreads; final := s |}
      | Some b =>
          let s := {| pos := 0; buf := b; state := state s;
                      headers := headers s;
                      contentLength := contentLength s; queue := queue s |} in
          match processBuf fuel s with
          | Returned s' => mainLoop fuel rest s' nreads
          | Threw e s' => {| emitted := queue s'; outcome := Errored e;
                             reads := nreads; final := s' |}
          | Looping s' => {| emitted := queue s'; outcome := Hung;
                             reads := nreads; final := s' |}
          end
      end
  end.

End WithBoundary.

(** [encoder.encode('--' + boundaryStr + '\r\n')] and
    [encoder.encode('--' + boundaryStr + '--')] *)
Definition midBoundaryOf (boundaryStr : JSString) : Uint8Array :=
  encode (lit "--" ++ boundaryStr ++ [CR; LF]).
Definition endBoundaryOf (boundaryStr : JSString) : Uint8Array :=
  encode (lit "--" ++ boundaryStr ++ lit "--").

(** [start(controller)] of the stream that [multipartStream] returns, run
    against a source that delivers [chunks]. *)
Definition start (fuel : nat) (contentType : JSString)
  (chunks : list Uint8Array) : Result :=
  match getBoundary contentType with
  | None => {| emitted := []; outcome := Errored InvalidContentType;
               reads := O; final := initial |}
  | Some boundaryStr =>
      mainLoop (midBoundaryOf boundaryStr) (endBoundaryOf boundaryStr)
               fuel chunks initial O
  end.

End Parser.


(** ** Cancellation

    [multipartStream] takes a reader of [body] when it is called, and the
    stream it returns cancels by calling [body.cancel(reason)].  What the
    platform does with these calls is the Streams standard's: [getReader]
    locks the stream, and [cancel] on a locked stream returns a promise
    rejected with a TypeError without running the cancel algorithm of the
    underlying source. *)

Module Cancel.
Import Parser.

Section WithReason.

Variable Reason : Type.

Inductive StreamState := Readable | StreamClosed | StreamErrored (e : Error).

Record ReadableStream := {
  locked : bool;
  stream_state : StreamState;
  cancels : list Reason     (* the reasons the underlying source's cancel
                               algorithm has been run with, in order *)
}.

Inductive Promise := Fulfilled | Rejected (e : Error).

(** [stream.getReader()]; [None] is the TypeError of a stream that is
    already locked. *)
Definition getReader (b : ReadableStream) : option ReadableStream :=
  if locked b then None
  else Some {| locked := true; stream_state := stream_state b;
               cancels := cancels b |}.

(** [stream.cancel(reason)]: the stream afterwards and the promise
    returned. *)
Definition streamCancel (b : ReadableStream) (reason : Reason)
  : ReadableStream * Promise :=
  if locked b then (b, Rejected TypeError)
  else match stream_state b with
       | StreamClosed => (b, Fulfilled)
       | StreamErrored e => (b, Rejected e)
       | Readable =>
           ({| locked := locked b; stream_state := StreamClosed;
               cancels := cancels b ++ [reason] |}, Fulfilled)
       end.

(** The stream that [multipartStream(contentType, body)] returns: its
    closures hold [contentType] and [body], whose reader has been taken. *)
Record Multipart := {
  mp_contentType : JS.JSString;
  mp_body : ReadableStream
}.

Definition multipartStream (contentType : JS.JSString) (body : ReadableStream)
  : option Multipart :=
  match getReader body with
  | None => None
  | Some b => Some {| mp_contentType := contentType; mp_body := b |}
  end.

(** [cancel(reason) { return body.cancel(reason); }] *)
Definition cancel (m : Multipart) (reason : Reason)
  : ReadableStream * Promise :=
  streamCancel (mp_body m) reason.

End WithReason.

Arguments locked {Reason}.
Arguments stream_state {Reason}.
Arguments cancels {Reason}.
Arguments getReader {Reason}.
Arguments streamCancel {Reason}.
Arguments mp_contentType {Reason}.
Arguments mp_body {Reason}.
Arguments multipartStream {Reason}.
Arguments cancel {Reason}.

End Cancel.

(** ** The wire format *)

Module Wire.
Import JS Parser.

(** Where a parser stands in a stream: before a boundary, inside the header
    block of a part whose headers so far are [h], before the body of [n]
    bytes of a part with headers [h], or after the end boundary. *)
Inductive Phase :=
| PBoundary
| PHeaders (h : Headers.t)
| PBody (h : Headers.t) (n : Z)
| PDone.

Definition isNewline (c : Z) : Prop := c = LF \/ c = CR.

(** A sequence of CR LF pairs. *)
Inductive CRLFs : Uint8Array -> Prop :=
| CRLFs_nil : CRLFs []
| CRLFs_cons R : CRLFs R -> CRLFs (CR :: LF :: R).

(** The padding after the end boundary: CR LF pairs when [strict], any CR
    and LF bytes otherwise. *)
Definition Padding (strict : bool) (R : Uint8Array) : Prop :=
  if strict then CRLFs R else Forall isNewline R.

Section Grammar.

Variables midBoundary endBoundary : Uint8Array.
Variable strict : bool.

(** [Tail ph R ps]: from phase [ph], the bytes [R] are the rest of a stream
    in the wire format, and [ps] are the parts that it completes.  A header
    line is the UTF-8 of a name, a colon, a space and a value that
    [Headers.append] accepts; the header block of a part gives a
    Content-Length that is the length of its body. *)
Inductive Tail : Phase -> Uint8Array -> list Part -> Prop :=
| T_blank R ps :
    Tail PBoundary R ps ->
    Tail PBoundary (blankLine ++ R) ps
| T_mid R ps :
    Tail (PHeaders Headers.new) R ps ->
    Tail PBoundary (midBoundary ++ R) ps
| T_end R :
    Tail PDone R [] ->
    Tail PBoundary (endBoundary ++ R) []
| T_line h h' l name value R ps :
    ~ In CR l ->
    decode l = name ++ lit ": " ++ value ->
    Headers.append h name value = Some h' ->
    Tail (PHeaders h') R ps ->
    Tail (PHeaders h) (l ++ [CR; LF] ++ R) ps
| T_endHeaders h n R ps :
    parseContentLength h = Some n ->
    0 <= n ->
    Tail (PBody h n) R ps ->
    Tail (PHeaders h) ([CR; LF] ++ R) ps
| T_body h n body R ps :
    len body = n ->
    Tail PBoundary R ps ->
    Tail (PBody h n) (body ++ R)
         ({| part_headers := Some h; part_body := body |} :: ps)
| T_done R :
    Padding strict R ->
    Tail PDone R [].

End Grammar.

(** A valid stream for the boundary string [b], and its parts. *)
Definition Valid (strict : bool) (b : JSString) (stream : Uint8Array)
  (parts : list Part) : Prop :=
  Tail (midBoundaryOf b) (endBoundaryOf b) strict PBoundary stream parts.

(** The variables of the parser in phase [ph], with [p] the unprocessed
    bytes of the buffer. *)
Definition Rep (s : PState) (ph : Phase) (p : Uint8Array) : Prop :=
  0 <= pos s <= len (buf s)
  /\ skipn (Z.to_nat (pos s)) (buf s) = p
  /\ match ph with
     | PBoundary | PDone => state s = STATE_BOUNDARY
     | PHeaders h => state s = STATE_HEADERS /\ headers s = Some h
     | PBody h n => state s = STATE_BODY /\ headers s = Some h
                    /\ contentLength s = Some (Some n)
     end.

(** Modelled from the spec: the encoder of the wire format of section 6,
    which the repository does not contain.  A part is a boundary line, one
    line "Name: value" per header in order, an empty line and the body; the
    stream is its parts followed by the end boundary. *)
Definition Header := (JSString * JSString)%type.

Definition encodeHeader (nv : Header) : Uint8Array :=
  encode (fst nv ++ lit ": " ++ snd nv) ++ [CR; LF].

Definition encodePart (b : JSString) (p : list Header * Uint8Array)
  : Uint8Array :=
  midBoundaryOf b ++ flat_map encodeHeader (fst p) ++ [CR; LF] ++ snd p.

Definition encodeStream (b : JSString)
  (ps : list (list Header * Uint8Array)) : Uint8Array :=
  flat_map (encodePart b) ps ++ endBoundaryOf b.

(** A header that the wire format can carry: a token as name, and a value of
    bytes without NUL, CR or LF and without whitespace at either end. *)
Definition validHeader (nv : Header) : Prop :=
  Headers.isHeaderName (fst nv) = true
  /\ Headers.isByteString (snd nv) = true
  /\ Headers.isHeaderValue (snd nv) = true
  /\ Headers.normalize (snd nv) = snd nv.

(** A pair of headers and body whose headers carry the length of the body as
    Content-Length. *)
Definition validPair (p : list Header * Uint8Array) : Prop :=
  Forall validHeader (fst p)
  /\ parseContentLength (fst p) = Some (len (snd p)).

Definition partOf (p : list Header * Uint8Array) : Part :=
  {| part_headers := Some (fst p); part_body := snd p |}.


End Wire.

(** ** Concrete inputs *)

Module Examples.
Import JS Parser Wire.

Definition ct : JSString := lit "multipart/x-mixed-replace; boundary=X".

Definition crlf : JSString := [CR; LF].

(** The stream of the worked example of the specification. *)
Definition worked : Uint8Array :=
  encode (lit "--X" ++ crlf ++ lit "Content-Length: 5" ++ crlf ++ crlf
          ++ lit "hello--X--").

Definition worked_part : Part :=
  {| part_headers := Some [(lit "Content-Length", lit "5")];
     part_body := encode (lit "hello") |}.

(** A part that declares a negative length. *)
Definition negative : Uint8Array :=
  encode (lit "--X" ++ crlf ++ lit "Content-Length: -5" ++ crlf ++ crlf).

Definition negative_part : Part :=
  {| part_headers := Some [(lit "Content-Length", lit "-5")];
     part_body := [] |}.

(** A negative length larger than the bytes consumed so far. *)
Definition negative_far : Uint8Array :=
  encode (lit "--X" ++ crlf ++ lit "Content-Length: -1000" ++ crlf ++ crlf).

(** A negative length that leads back to the start of the boundary. *)
Definition negative_back : Uint8Array :=
  encode (lit "--X" ++ crlf ++ lit "Content-Length: -28" ++ crlf ++ crlf).

(** A header line without a colon that starts with a space. *)
Definition no_colon : Uint8Array :=
  encode (lit "--X" ++ crlf ++ lit " foo" ++ crlf ++ crlf).

(** The end boundary alone, five LF bytes, five other bytes, and a whole
    stream of one empty part. *)
Definition end_only : Uint8Array := encode (lit "--X--").

Definition newlines : Uint8Array := [LF; LF; LF; LF; LF].

Definition garbage : Uint8Array := encode (lit "abcde").

Definition empty_part_stream : Uint8Array :=
  encode (lit "--X" ++ crlf ++ lit "Content-Length: 0" ++ crlf ++ crlf
          ++ lit "--X--").

Definition empty_part : Part :=
  {| part_headers := Some [(lit "Content-Length", lit "0")];
     part_body := [] |}.

(** Two parts to encode, the first with a repeated header name. *)
Definition pairs : list (list Header * Uint8Array) :=
  [([(lit "Content-Length", lit "5"); (lit "X-Tag", lit "a");
     (lit "X-Tag", lit "b")], encode (lit "hello"));
   ([(lit "Content-Type", lit "text/plain"); (lit "Content-Length", lit "0")],
    [])].



(** The variables of a parser that has read the boundary of a part and has
    a header line in its buffer. *)
Definition in_headers (line : JSString) : PState :=
  {| pos := 5; buf := encode (lit "--X" ++ crlf ++ line ++ crlf);
     state := STATE_HEADERS; headers := Some [(lit "A", lit "1")];
     contentLength := None; queue := [] |}.

(** The variables of a parser before the body of a part of length 0, with
    nothing left in its buffer. *)
Definition before_empty_body : PState :=
  {| pos := 26;
     buf := encode (lit "--X" ++ crlf ++ lit "Content-Length: 0" ++ crlf
                    ++ crlf);
     state := STATE_BODY; headers := Some [(lit "Content-Length", lit "0")];
     contentLength := Some (Some 0); queue := [] |}.

End Examples.

(** ** Notions used to state further properties *)

Module Derived.
Import JS Parser.

(** The unprocessed bytes: [buf.slice(pos)] for a cursor within the
    buffer. *)
Definition pending (s : PState) : Uint8Array :=
  skipn (Z.to_nat (pos s)) (buf s).

(** [k] blank lines. *)
Definition blankLines (k : nat) : Uint8Array :=
  List.concat (repeat blankLine k).

(** The length that the headers of a part declare. *)
Definition declared (p : Part) : option Z :=
  match part_headers p with
  | Some h => parseContentLength h
  | None => None
  end.

(** No part enqueued so far, nor the part whose body is awaited, declares a
    negative length. *)
Definition NoNegativeLength (s : PState) : Prop :=
  (forall p n, In p (queue s) -> declared p = Some n -> 0 <= n)
  /\ (forall n, state s = STATE_BODY -> contentLength s = Some (Some n) ->
      0 <= n).

(** What the comments on [headers] and [contentLength] say of the variables
    of [start], and that every part enqueued declares a length. *)
Definition Consistent (s : PState) : Prop :=
  match state s with
  | STATE_BOUNDARY => headers s = None /\ contentLength s = None
  | STATE_HEADERS => headers s <> None /\ contentLength s = None
  | STATE_BODY =>
      exists h n, headers s = Some h /\ contentLength s = Some (Some n)
                  /\ parseContentLength h = Some n
  end
  /\ forall p, In p (queue s) -> declared p <> None.

(** The variables after [processBuf] has thrown [e]: 'missing/invalid part
    Content-Length' is thrown in STATE_HEADERS with the NaN that [parseInt]
    gave left in [contentLength]; at every other error the variables are as
    the comments say. *)
Definition ConsistentAfter (e : Error) (s : PState) : Prop :=
  match e with
  | InvalidContentLength =>
      state s = STATE_HEADERS
      /\ (exists h, headers s = Some h /\ parseContentLength h = None)
      /\ contentLength s = Some None
      /\ forall p, In p (queue s) -> declared p <> None
  | _ => Consistent s
  end.

(** A part whose Content-Length is not a number. *)
Definition not_a_number : Uint8Array :=
  encode (lit "--X" ++ [CR; LF] ++ lit "Content-Length: abc" ++ [CR; LF]
          ++ [CR; LF]).

(** The variables at the end of a run that ended with [o]. *)
Definition ConsistentEnd (o : Outcome) (s : PState) : Prop :=
  match o with
  | Errored e => ConsistentAfter e s
  | Closed | Hung => Consistent s
  end.

(** A bound on the passes that [processBuf] makes from [s] when no length is
    negative: the unprocessed bytes, and one more before a body. *)
Definition passes (s : PState) : nat :=
  Z.to_nat (len (buf s) - pos s)
  + match state s with STATE_BODY => 1 | _ => 0 end.

(** The cursor is within the buffer, and every part enqueued has a body of
    the length it declares. *)
Definition BodiesExact (s : PState) : Prop :=
  0 <= pos s <= len (buf s)
  /\ forall p, In p (queue s) -> declared p = Some (len (part_body p)).

(** The variables after a pass, and after [processBuf]. *)
Definition stepState (x : Step) : PState :=
  match x with Continue s | Return s | Throw _ s => s end.

Definition drainState (d : Drain) : PState :=
  match d with Returned s | Threw _ s | Looping s => s end.

(** Inputs for the examples. *)
Definition two_lengths : Headers.t :=
  [(lit "X-Tag", lit "a"); (lit "content-length", lit "7");
   (lit "Content-Length", lit "9")].

Definition before_boundary (bytes : Uint8Array) : PState :=
  {| pos := 2; buf := [0; 0] ++ bytes; state := STATE_BOUNDARY;
     headers := None; contentLength := None; queue := [] |}.

Definition before_body (n : Z) (bytes : Uint8Array) : PState :=
  {| pos := 1; buf := 0 :: bytes; state := STATE_BODY;
     headers := Some [(lit "Content-Length", lit "3")];
     contentLength := Some (Some n); queue := [] |}.

End Derived.

(** * Properties *)

(** ** Lists, typed arrays and strings *)

Module Facts.
Import JS Parser.

Lemma len_nonneg {A : Type} (a : list A) : 0 <= len a.
Proof. unfold len. lia. Qed.

Lemma len_app {A : Type} (a b : list A) : len (a ++ b) = len a + len b.
Proof. unfold len. rewrite length_app. lia. Qed.

Lemma len_cons {A : Type} (x : A) (a : list A) : len (x :: a) = 1 + len a.
Proof. unfold len. simpl List.length. lia. Qed.

Lemma len_nil {A : Type} : len (@nil A) = 0.
Proof. reflexivity. Qed.

Lemma len_skipn {A : Type} (a : list A) (p : Z) :
  0 <= p <= len a -> len (skipn (Z.to_nat p) a) = len a - p.
Proof. unfold len. intros H. rewrite length_skipn. lia. Qed.

Lemma len_firstn {A : Type} (a : list A) (k : Z) :
  0 <= k <= len a -> len (firstn (Z.to_nat k) a) = k.
Proof. unfold len. intros H. rewrite length_firstn. lia. Qed.

Lemma firstn_len_app {A : Type} (a b : list A) :
  firstn (Z.to_nat (len a)) (a ++ b) = a.
Proof.
  unfold len. rewrite Nat2Z.id, firstn_app, Nat.sub_diag, firstn_all.
  simpl. apply app_nil_r.
Qed.

Lemma skipn_len_app {A : Type} (a b : list A) :
  skipn (Z.to_nat (len a)) (a ++ b) = b.
Proof.
  unfold len. rewrite Nat2Z.id, skipn_app, Nat.sub_diag, skipn_all.
  reflexivity.
Qed.

Lemma app_eq_len {A : Type} (a b x y : list A) :
  a ++ x = b ++ y -> List.length a = List.length b -> a = b /\ x = y.
Proof.
  revert b. induction a as [|c a IH]; intros [|d b] H Hl; simpl in *;
    try discriminate; [now split|].
  injection H as -> H. destruct (IH b H) as [-> ->]; [lia|now split].
Qed.

Lemma skipn_app3 {A : Type} (x y z r : list A) (k : Z) :
  k = len x + len y + len z ->
  skipn (Z.to_nat k) (x ++ y ++ z ++ r) = r.
Proof.
  intros ->.
  replace (len x + len y + len z) with (len (x ++ y ++ z))
    by (rewrite !len_app; lia).
  replace (x ++ y ++ z ++ r) with ((x ++ y ++ z) ++ r)
    by (now rewrite <- !app_assoc).
  apply skipn_len_app.
Qed.

Lemma skipn_skipn_Z {A : Type} (a : list A) (p k : Z) :
  0 <= p -> 0 <= k ->
  skipn (Z.to_nat (p + k)) a = skipn (Z.to_nat k) (skipn (Z.to_nat p) a).
Proof.
  intros Hp Hk. rewrite skipn_skipn. f_equal. lia.
Qed.

(** The slice that starts at the cursor, in terms of the pending bytes. *)
Lemma slice_pending (b : Uint8Array) (p k : Z) :
  0 <= p <= len b -> 0 <= k ->
  slice b p (p + k) = firstn (Z.to_nat k) (skipn (Z.to_nat p) b).
Proof.
  intros Hp Hk. unfold slice, relIndex.
  destruct (Z.ltb_spec p 0); [lia|].
  destruct (Z.ltb_spec (p + k) 0); [lia|].
  rewrite (Z.min_l p) by lia.
  destruct (Z.le_ge_cases (p + k) (len b)) as [Hle|Hge].
  - rewrite Z.min_l by lia. f_equal. lia.
  - rewrite Z.min_r by lia.
    rewrite !firstn_all2; trivial; rewrite length_skipn; unfold len in *; lia.
Qed.

Lemma sliceFrom_pending (b : Uint8Array) (p : Z) :
  0 <= p <= len b -> sliceFrom b p = skipn (Z.to_nat p) b.
Proof.
  intros Hp. unfold sliceFrom.
  replace (len b) with (p + (len b - p)) at 1 by lia.
  rewrite slice_pending by lia.
  apply firstn_all2. rewrite length_skipn. unfold len in *. lia.
Qed.

Lemma compareElems_eq (a b : Uint8Array) :
  List.length a = List.length b -> (compareElems a b = true <-> a = b).
Proof.
  revert b. induction a as [|x a IH]; intros [|y b] Hl; simpl in *;
    try discriminate; try tauto.
  destruct (Z.eqb_spec x y) as [->|Hne]; simpl.
  - rewrite IH by lia. split; [intros ->; reflexivity|congruence].
  - split; [discriminate|congruence].
Qed.

Lemma compareArrays_eq (a b : Uint8Array) :
  compareArrays a b = true <-> a = b.
Proof.
  unfold compareArrays, len.
  destruct (Z.eqb_spec (Z.of_nat (List.length a)) (Z.of_nat (List.length b)))
    as [He|Hne]; simpl.
  - apply compareElems_eq. lia.
  - split; [discriminate|]. intros ->. lia.
Qed.

Lemma compareArrays_refl (a : Uint8Array) : compareArrays a a = true.
Proof. apply compareArrays_eq. reflexivity. Qed.

Lemma compareArrays_neq (a b : Uint8Array) :
  a <> b -> compareArrays a b = false.
Proof.
  intros H. destruct (compareArrays a b) eqn:E; trivial.
  apply compareArrays_eq in E. contradiction.
Qed.

Lemma indexOfAux_found (x : Z) (l r : list Z) (k : Z) :
  ~ In x l -> indexOfAux x (l ++ x :: r) k = k + len l.
Proof.
  revert k. induction l as [|y l IH]; intros k Hn; simpl.
  - rewrite Z.eqb_refl. rewrite len_nil. lia.
  - destruct (Z.eqb_spec y x) as [->|Hne].
    + exfalso. apply Hn. now left.
    + rewrite IH, len_cons. lia. intros Hin. apply Hn. now right.
Qed.

Lemma indexOfAux_none (x : Z) (l : list Z) (k : Z) :
  ~ In x l -> indexOfAux x l k = -1.
Proof.
  revert k. induction l as [|y l IH]; intros k Hn; simpl; trivial.
  destruct (Z.eqb_spec y x) as [->|Hne].
  - exfalso. apply Hn. now left.
  - apply IH. intros Hin. apply Hn. now right.
Qed.

Lemma indexOf_found (b : Uint8Array) (p x : Z) (l r : list Z) :
  0 <= p -> skipn (Z.to_nat p) b = l ++ x :: r -> ~ In x l ->
  indexOf b x p = p + len l.
Proof.
  intros Hp He Hn. unfold indexOf.
  destruct (Z.ltb_spec p 0); [lia|].
  rewrite He. now apply indexOfAux_found.
Qed.

Lemma indexOf_none (b : Uint8Array) (p x : Z) :
  0 <= p -> ~ In x (skipn (Z.to_nat p) b) -> indexOf b x p = -1.
Proof.
  intros Hp Hn. unfold indexOf.
  destruct (Z.ltb_spec p 0); [lia|].
  now apply indexOfAux_none.
Qed.

Lemma at_pending (b : Uint8Array) (p i : Z) :
  0 <= p -> 0 <= i ->
  at_ b (p + i) = nth_error (skipn (Z.to_nat p) b) (Z.to_nat i).
Proof.
  intros Hp Hi. unfold at_.
  destruct (Z.ltb_spec (p + i) 0); [lia|].
  rewrite nth_error_skipn. f_equal. lia.
Qed.

Lemma eqb_list_true (a b : list Z) : eqb_list a b = true <-> a = b.
Proof.
  unfold eqb_list. destruct (list_eq_dec Z.eq_dec a b); split; congruence.
Qed.

Lemma eqb_list_false (a b : list Z) : eqb_list a b = false <-> a <> b.
Proof.
  unfold eqb_list. destruct (list_eq_dec Z.eq_dec a b); split; congruence.
Qed.

End Facts.

(** ** Strings *)

Module StringFacts.
Import JS Facts.

Lemma prefixb_app (p r : list Z) : prefixb p (p ++ r) = true.
Proof.
  induction p as [|x p IH]; simpl; trivial.
  now rewrite Z.eqb_refl, IH.
Qed.

Lemma prefixb_true (p s : list Z) :
  prefixb p s = true <-> exists r, s = p ++ r.
Proof.
  split.
  - revert s. induction p as [|x p IH]; intros s H.
    + now exists s.
    + destruct s as [|y s]; simpl in H; [discriminate|].
      apply andb_prop in H as [Hx Hp]. apply Z.eqb_eq in Hx. subst y.
      destruct (IH _ Hp) as [r ->]. now exists r.
  - intros [r ->]. apply prefixb_app.
Qed.

(** [strIndexOfAux p s k] is [-1] when [p] does not occur in [s], and [k]
    plus the offset of the first occurrence otherwise. *)
Lemma strIndexOfAux_spec (p s : list Z) (k : Z) :
  (strIndexOfAux p s k = -1 /\ forall a r, s <> a ++ p ++ r)
  \/ (exists a r, s = a ++ p ++ r /\ strIndexOfAux p s k = k + len a
        /\ forall a' r', s = a' ++ p ++ r' -> len a <= len a').
Proof.
  revert k. induction s as [|y s IH]; intros k; simpl.
  - destruct (prefixb p []) eqn:E.
    + right. apply prefixb_true in E as [r Hr]. exists [], r. simpl.
      rewrite len_nil. repeat split; [assumption|lia|].
      intros a' r' _. apply len_nonneg.
    + left. split; trivial. intros a r H.
      symmetry in H. apply app_eq_nil in H as [_ H].
      pose proof (prefixb_app p r) as Hp. rewrite H in Hp. congruence.
  - destruct (prefixb p (y :: s)) eqn:E.
    + right. apply prefixb_true in E as [r Hr]. exists [], r. simpl.
      rewrite len_nil. repeat split; [assumption|lia|].
      intros a' r' _. apply len_nonneg.
    + destruct (IH (k + 1)) as [[H1 H2]|(a & r & H1 & H2 & H3)].
      * left. split; trivial. intros [|x a] r H.
        -- simpl in H. rewrite H, prefixb_app in E. discriminate.
        -- simpl in H. injection H as _ H. now apply H2 in H.
      * right. exists (y :: a), r. subst s. simpl. rewrite len_cons.
        repeat split; [lia|].
        intros [|x a'] r' H.
        -- simpl in H. rewrite H, prefixb_app in E. discriminate.
        -- simpl in H. injection H as _ H. apply H3 in H.
           rewrite len_cons. lia.
Qed.

Lemma clamp_id (n i : Z) : 0 <= i <= n -> clamp n i = i.
Proof. unfold clamp. lia. Qed.

Lemma substring_prefix (s : JSString) (c : Z) :
  0 <= c <= len s -> substring s 0 c = firstn (Z.to_nat c) s.
Proof.
  intros H. unfold substring.
  rewrite !clamp_id by (pose proof (len_nonneg s); lia).
  rewrite Z.min_l, Z.max_r by lia. simpl. f_equal. lia.
Qed.

Lemma substring_neg (s : JSString) (c : Z) : c <= 0 -> substring s 0 c = [].
Proof.
  intros H. unfold substring, clamp. pose proof (len_nonneg s).
  rewrite (Z.max_l 0 0), (Z.max_r c 0) by lia.
  rewrite !(Z.min_l 0) by lia. reflexivity.
Qed.

Lemma substringFrom_skipn (s : JSString) (k : Z) :
  0 <= k <= len s -> substringFrom s k = skipn (Z.to_nat k) s.
Proof.
  intros H. unfold substringFrom, substring.
  rewrite !clamp_id by lia.
  rewrite Z.min_l, Z.max_r by lia.
  apply firstn_all2. rewrite length_skipn. unfold len in *. lia.
Qed.

End StringFacts.

(** ** The boundary of a content type *)

Module Boundary.
Import JS Parser Facts StringFacts.

Lemma len_MULTIPART_TYPE : len MULTIPART_TYPE = 10.
Proof. reflexivity. Qed.

Lemma len_BOUNDARY_PARAM : len BOUNDARY_PARAM = 11.
Proof. reflexivity. Qed.

(** [getBoundary] on a string that starts with "multipart/". *)
Lemma getBoundary_multipart (rest : JSString) :
  getBoundary (MULTIPART_TYPE ++ rest)
  = let i := strIndexOfAux BOUNDARY_PARAM rest 10 in
    if i =? -1 then None
    else Some (substringFrom (MULTIPART_TYPE ++ rest) (i + 11)).
Proof.
  unfold getBoundary, startsWith. rewrite prefixb_app. simpl negb. cbv iota.
  unfold strIndexOf. rewrite len_MULTIPART_TYPE, len_BOUNDARY_PARAM.
  rewrite clamp_id.
  - change (Z.to_nat 10) with (Z.to_nat (len MULTIPART_TYPE)).
    rewrite skipn_len_app. reflexivity.
  - rewrite len_app, len_MULTIPART_TYPE. pose proof (len_nonneg rest). lia.
Qed.

Lemma getBoundary_Some (ct tok : JSString) :
  getBoundary ct = Some tok <->
  exists sub,
    ct = MULTIPART_TYPE ++ sub ++ BOUNDARY_PARAM ++ tok
    /\ forall sub' tok',
         ct = MULTIPART_TYPE ++ sub' ++ BOUNDARY_PARAM ++ tok' ->
         len sub <= len sub'.
Proof.
  split.
  - intros H.
    destruct (startsWith ct MULTIPART_TYPE) eqn:Es.
    2:{ unfold getBoundary in H. rewrite Es in H. discriminate. }
    apply prefixb_true in Es as [rest ->].
    rewrite getBoundary_multipart in H. cbv zeta in H.
    destruct (strIndexOfAux_spec BOUNDARY_PARAM rest 10)
      as [[E _]|(a & r & E1 & E2 & E3)].
    + rewrite E in H. discriminate.
    + rewrite E2 in H. pose proof (len_nonneg a).
      destruct (Z.eqb_spec (10 + len a) (-1)); [lia|].
      match type of H with
      | Some ?x = Some _ => assert (Ht : x = tok) by congruence
      end.
      clear H. rename Ht into H. exists a. subst rest. split.
      * f_equal. f_equal. f_equal. rewrite <- H.
        rewrite substringFrom_skipn. symmetry.
        -- apply skipn_app3.
           rewrite len_MULTIPART_TYPE, len_BOUNDARY_PARAM. lia.
        -- rewrite !len_app, len_MULTIPART_TYPE, len_BOUNDARY_PARAM.
           pose proof (len_nonneg r). lia.
      * intros sub' tok' Hs. apply app_inv_head in Hs. now apply E3 in Hs.
  - intros (sub & -> & Hmin).
    rewrite getBoundary_multipart. cbv zeta.
    destruct (strIndexOfAux_spec BOUNDARY_PARAM
                (sub ++ BOUNDARY_PARAM ++ tok) 10)
      as [[_ E]|(a & r & E1 & E2 & E3)].
    + now contradiction (E sub tok).
    + rewrite E2. pose proof (len_nonneg a).
      destruct (Z.eqb_spec (10 + len a) (-1)); [lia|].
      assert (Ha : len a = len sub).
      { apply Z.le_antisymm.
        - now apply (E3 sub tok).
        - apply (Hmin a r). now rewrite E1. }
      assert (a = sub /\ r = tok) as [-> ->].
      { assert (Hl : List.length a = List.length sub)
          by (unfold len in Ha; lia).
        symmetry in E1.
        destruct (app_eq_len _ _ _ _ E1 Hl) as [-> E]. split; trivial.
        now apply app_inv_head in E. }
      f_equal. rewrite substringFrom_skipn.
      * apply skipn_app3.
        rewrite len_MULTIPART_TYPE, len_BOUNDARY_PARAM. lia.
      * rewrite !len_app, len_MULTIPART_TYPE, len_BOUNDARY_PARAM.
        pose proof (len_nonneg tok). lia.
Qed.

Lemma getBoundary_None (ct : JSString) :
  getBoundary ct = None <->
  ~ exists sub tok, ct = MULTIPART_TYPE ++ sub ++ BOUNDARY_PARAM ++ tok.
Proof.
  split.
  - intros H (sub & tok & ->).
    rewrite getBoundary_multipart in H. cbv zeta in H.
    destruct (strIndexOfAux_spec BOUNDARY_PARAM
                (sub ++ BOUNDARY_PARAM ++ tok) 10)
      as [[_ E]|(a & r & E1 & E2 & E3)].
    + now contradiction (E sub tok).
    + rewrite E2 in H. pose proof (len_nonneg a).
      destruct (Z.eqb_spec (10 + len a) (-1)); [lia|discriminate].
  - intros H. destruct (getBoundary ct) as [tok|] eqn:E; trivial.
    apply getBoundary_Some in E as (sub & E & _).
    exfalso. apply H. now exists sub, tok.
Qed.

End Boundary.

(** ** The boundary lines *)

Module BoundaryLines.
Import JS Parser Facts.

Lemma encode_cons (u : Z) (r : JSString) :
  encode (u :: r)
  = if is_high u then
      match r with
      | v :: r' =>
          if is_low v
          then utf8_of_cp (65536 + (u - 55296) * 1024 + (v - 56320))
               ++ encode r'
          else utf8_of_cp 65533 ++ encode r
      | [] => utf8_of_cp 65533
      end
    else if is_low u then utf8_of_cp 65533 ++ encode r
    else utf8_of_cp u ++ encode r.
Proof. reflexivity. Qed.

Lemma encode_app_len (n : nat) (b : JSString) (c : Z) (r : JSString) :
  (List.length b <= n)%nat -> is_low c = false ->
  encode (b ++ c :: r) = encode b ++ encode (c :: r).
Proof.
  revert b. induction n as [|n IH]; intros b Hn Hc.
  - destruct b; [reflexivity|simpl in Hn; lia].
  - destruct b as [|u b]; [reflexivity|].
    simpl in Hn. rewrite <- app_comm_cons.
    rewrite (encode_cons u (b ++ c :: r)), (encode_cons u b).
    destruct (is_high u).
    + destruct b as [|v b].
      * change ([] ++ c :: r) with (c :: r). cbv iota. rewrite Hc.
        reflexivity.
      * change ((v :: b) ++ c :: r) with (v :: (b ++ c :: r)). cbv iota.
        simpl in Hn. destruct (is_low v).
        -- rewrite IH by (trivial; lia). now rewrite app_assoc.
        -- change (v :: (b ++ c :: r)) with ((v :: b) ++ c :: r).
           rewrite (IH (v :: b)) by (trivial; simpl; lia).
           now rewrite app_assoc.
    + destruct (is_low u); rewrite IH by (trivial; lia);
        now rewrite app_assoc.
Qed.

Lemma encode_app (b : JSString) (c : Z) (r : JSString) :
  is_low c = false -> encode (b ++ c :: r) = encode b ++ encode (c :: r).
Proof. apply (encode_app_len (List.length b)). lia. Qed.

Lemma midBoundaryOf_eq (b : JSString) :
  midBoundaryOf b = 45 :: 45 :: encode b ++ [CR; LF].
Proof.
  unfold midBoundaryOf. change (lit "--") with [45; 45].
  rewrite <- !app_comm_cons, app_nil_l.
  rewrite (encode_cons 45), (encode_cons 45 (b ++ _)).
  change (is_high 45) with false. change (is_low 45) with false.
  cbv iota. change (utf8_of_cp 45) with [45].
  now rewrite encode_app.
Qed.

Lemma endBoundaryOf_eq (b : JSString) :
  endBoundaryOf b = 45 :: 45 :: encode b ++ [45; 45].
Proof.
  unfold endBoundaryOf. change (lit "--") with [45; 45].
  rewrite <- !app_comm_cons, app_nil_l.
  rewrite (encode_cons 45), (encode_cons 45 (b ++ _)).
  change (is_high 45) with false. change (is_low 45) with false.
  cbv iota. change (utf8_of_cp 45) with [45].
  now rewrite encode_app.
Qed.

End BoundaryLines.

(** ** One pass of the loop, in terms of the unprocessed bytes *)

Module Steps.
Import JS Parser Wire Facts StringFacts.

Ltac split_and := repeat match goal with |- _ /\ _ => split end.

Lemma set_pos_same (s : PState) : set_pos s (pos s) = s.
Proof. now destruct s. Qed.

Lemma Rep_len (s : PState) (ph : Phase) (p : Uint8Array) :
  Rep s ph p -> len (buf s) = pos s + len p.
Proof.
  intros (Hp & He & _). rewrite <- He, len_skipn by lia. lia.
Qed.

Lemma blankLine_eq : blankLine = [CR; LF].
Proof. reflexivity. Qed.

Lemma len_blankLine : len blankLine = 2.
Proof. reflexivity. Qed.

(** The loop over blank lines does not depend on its bound, once the bound
    covers the bytes left. *)
Lemma skipBlank_fuel (n m : nat) (b : Uint8Array) (p : Z) :
  len b - p <= Z.of_nat n -> len b - p <= Z.of_nat m ->
  skipBlank n b p = skipBlank m b p.
Proof.
  revert m p. induction n as [|n IH]; intros [|m] p Hn Hm; simpl; trivial.
  - rewrite len_blankLine.
    destruct (Z.geb_spec (len b) (p + 2)); [lia|reflexivity].
  - rewrite len_blankLine.
    destruct (Z.geb_spec (len b) (p + 2)); [lia|reflexivity].
  - rewrite len_blankLine.
    destruct (Z.geb_spec (len b) (p + 2)); simpl; trivial.
    destruct (compareArrays _ _); trivial.
    apply IH; lia.
Qed.

Lemma slice_blank (b : Uint8Array) (p : Z) (q : Uint8Array) :
  0 <= p <= len b -> skipn (Z.to_nat p) b = q ->
  compareArrays (slice b p (p + len blankLine)) blankLine
  = prefixb [CR; LF] q.
Proof.
  intros Hp Hq. rewrite len_blankLine, slice_pending by lia.
  rewrite Hq, blankLine_eq. change (Z.to_nat 2) with 2%nat.
  destruct (prefixb [CR; LF] q) eqn:E.
  - apply prefixb_true in E as [r ->]. apply compareArrays_refl.
  - apply compareArrays_neq. intros F.
    assert (prefixb [CR; LF] q = true); [|congruence].
    apply prefixb_true. exists (skipn 2 q). rewrite <- F.
    symmetry. apply firstn_skipn.
Qed.

Lemma skipBlank_stop (n : nat) (b : Uint8Array) (p : Z) :
  0 <= p <= len b -> prefixb [CR; LF] (skipn (Z.to_nat p) b) = false ->
  skipBlank n b p = p.
Proof.
  intros Hp Hq. destruct n; simpl; trivial.
  rewrite (slice_blank _ _ (skipn (Z.to_nat p) b)), Hq by trivial.
  now rewrite andb_false_r.
Qed.

Section WithToken.

Variable tok : Uint8Array.

Let midB : Uint8Array := 45 :: 45 :: tok ++ [CR; LF].
Let endB : Uint8Array := 45 :: 45 :: tok ++ [45; 45].

Lemma len_midB : len midB = len tok + 4.
Proof.
  unfold midB. rewrite !len_cons, len_app, !len_cons, len_nil. lia.
Qed.

Lemma len_endB : len endB = len tok + 4.
Proof.
  unfold endB. rewrite !len_cons, len_app, !len_cons, len_nil. lia.
Qed.

Lemma midB_neq_endB (r r' : Uint8Array) : midB ++ r <> endB ++ r'.
Proof.
  unfold midB, endB. intros H. simpl in H. injection H as H.
  rewrite <- !app_assoc in H. apply app_inv_head in H. discriminate.
Qed.

(** A blank line at the cursor is skipped. *)
Lemma stepBoundary_skip (s : PState) (q : Uint8Array) :
  Rep s PBoundary (CR :: LF :: q) ->
  stepBoundary midB endB s
  = stepBoundary midB endB (set_pos s (pos s + 2))
  /\ Rep (set_pos s (pos s + 2)) PBoundary q.
Proof.
  intros HR. pose proof (Rep_len _ _ _ HR) as Hl.
  destruct HR as (Hp & He & Hs). rewrite !len_cons in Hl.
  pose proof (len_nonneg q).
  split.
  - unfold stepBoundary.
    destruct (Z.to_nat (len (buf s) - pos s)) as [|n] eqn:En; [lia|].
    cbn [skipBlank].
    rewrite (slice_blank _ _ (CR :: LF :: q)) by trivial.
    destruct (Z.geb_spec (len (buf s)) (pos s + len blankLine));
      [|rewrite len_blankLine in *; lia].
    change (prefixb [CR; LF] (CR :: LF :: q)) with true. cbn [andb].
    rewrite len_blankLine.
    rewrite (skipBlank_fuel n (Z.to_nat (len (buf s) - (pos s + 2))))
      by lia.
    reflexivity.
  - repeat split; simpl; try lia; trivial.
    rewrite skipn_skipn_Z, He by lia. reflexivity.
Qed.

(** Without a blank line at the cursor, the boundary pass compares the
    bytes at the cursor with the two boundary lines. *)
Lemma stepBoundary_noblank (s : PState) (ph : Phase) (q : Uint8Array) :
  0 <= pos s <= len (buf s) -> skipn (Z.to_nat (pos s)) (buf s) = q ->
  prefixb [CR; LF] q = false ->
  stepBoundary midB endB s
  = if len q <? len midB then Return s
    else if negb (compareArrays (firstn (Z.to_nat (len midB)) q) midB) then
      if compareArrays (firstn (Z.to_nat (len endB)) q) endB
      then Return {| pos := pos s + len endB; buf := buf s;
                     state := STATE_BOUNDARY; headers := headers s;
                     contentLength := contentLength s; queue := queue s |}
      else Throw MalformedBoundary s
    else Continue {| pos := pos s + len midB; buf := buf s;
                     state := STATE_HEADERS; headers := Some Headers.new;
                     contentLength := contentLength s; queue := queue s |}.
Proof.
  intros Hp He Hq. unfold stepBoundary.
  rewrite skipBlank_stop by (trivial; now rewrite He).
  rewrite set_pos_same.
  assert (Hl : len (buf s) = pos s + len q)
    by (rewrite <- He, len_skipn by lia; lia).
  pose proof (len_nonneg midB). pose proof (len_nonneg endB).
  rewrite !slice_pending, He by lia.
  destruct (Z.ltb_spec (len (buf s)) (pos s + len midB)),
           (Z.ltb_spec (len q) (len midB)); try lia; reflexivity.
Qed.

Lemma stepBoundary_short (s : PState) (q : Uint8Array) :
  Rep s PBoundary q -> prefixb [CR; LF] q = false -> len q < len midB ->
  stepBoundary midB endB s = Return s.
Proof.
  intros (Hp & He & _) Hq Hl.
  rewrite (stepBoundary_noblank s PBoundary q Hp He Hq).
  destruct (Z.ltb_spec (len q) (len midB)); [reflexivity|lia].
Qed.

Lemma prefixb_midB (r : Uint8Array) : prefixb [CR; LF] (midB ++ r) = false.
Proof. reflexivity. Qed.

Lemma prefixb_endB (r : Uint8Array) : prefixb [CR; LF] (endB ++ r) = false.
Proof. reflexivity. Qed.

Lemma stepBoundary_mid (s : PState) (q : Uint8Array) :
  Rep s PBoundary (midB ++ q) ->
  exists s',
    stepBoundary midB endB s = Continue s'
    /\ Rep s' (PHeaders Headers.new) q /\ queue s' = queue s.
Proof.
  intros HR. pose proof (Rep_len _ _ _ HR) as Hl.
  destruct HR as (Hp & He & Hs).
  rewrite (stepBoundary_noblank s PBoundary _ Hp He (prefixb_midB q)).
  rewrite len_app in *. pose proof (len_nonneg q).
  pose proof (len_nonneg midB).
  destruct (Z.ltb_spec (len midB + len q) (len midB)); [lia|].
  rewrite firstn_len_app, compareArrays_refl. simpl negb. cbv iota.
  eexists. split; [reflexivity|].
  repeat split; simpl; try lia.
  rewrite skipn_skipn_Z, He by lia. apply skipn_len_app.
Qed.

Lemma stepBoundary_end (s : PState) (q : Uint8Array) :
  Rep s PBoundary (endB ++ q) ->
  exists s',
    stepBoundary midB endB s = Return s'
    /\ Rep s' PDone q /\ queue s' = queue s.
Proof.
  intros HR. pose proof (Rep_len _ _ _ HR) as Hl.
  destruct HR as (Hp & He & Hs).
  rewrite (stepBoundary_noblank s PBoundary _ Hp He (prefixb_endB q)).
  rewrite len_app in *. pose proof (len_nonneg q).
  pose proof (len_nonneg endB). rewrite len_midB. rewrite <- len_endB.
  destruct (Z.ltb_spec (len endB + len q) (len endB)); [lia|].
  rewrite (compareArrays_neq (firstn _ _) midB).
  2:{ intros E.
      pose proof (firstn_skipn (Z.to_nat (len endB)) (endB ++ q)) as F.
      rewrite E in F. now apply midB_neq_endB in F. }
  simpl negb. cbv iota.
  rewrite firstn_len_app, compareArrays_refl.
  eexists. split; [reflexivity|].
  repeat split; simpl; try lia.
  rewrite skipn_skipn_Z, He by lia. apply skipn_len_app.
Qed.

(** Newline bytes at the cursor that are not a blank line, and as many of
    them as a boundary line has: the boundary pass throws. *)
Lemma stepBoundary_newlines (s : PState) (q : Uint8Array) :
  Rep s PDone q -> Forall isNewline q ->
  prefixb [CR; LF] q = false -> len midB <= len q ->
  stepBoundary midB endB s = Throw MalformedBoundary s.
Proof.
  intros (Hp & He & _) Hn Hq Hl.
  rewrite (stepBoundary_noblank s PDone _ Hp He Hq).
  destruct (Z.ltb_spec (len q) (len midB)); [lia|].
  rewrite len_midB in Hl. pose proof (len_nonneg tok).
  destruct q as [|x q]; [rewrite len_nil in Hl; lia|].
  apply Forall_inv in Hn.
  assert (Hx : x <> 45) by (destruct Hn; subst x; discriminate).
  rewrite len_midB, len_endB.
  destruct (Z.to_nat (len tok + 4)) as [|k] eqn:Ek; [lia|].
  simpl firstn.
  rewrite !compareArrays_neq; [reflexivity| |];
    unfold midB, endB; congruence.
Qed.

(** *** The header pass *)

Lemma stepHeaders_noCR (s : PState) (h : Headers.t) (q : Uint8Array) :
  Rep s (PHeaders h) q -> ~ In CR q -> stepHeaders s = Return s.
Proof.
  intros (Hp & He & _) Hn. unfold stepHeaders.
  rewrite indexOf_none by (try lia; now rewrite He).
  reflexivity.
Qed.

Lemma stepHeaders_lastCR (s : PState) (h : Headers.t) (l : Uint8Array) :
  Rep s (PHeaders h) (l ++ [CR]) -> ~ In CR l -> stepHeaders s = Return s.
Proof.
  intros HR Hn. pose proof (Rep_len _ _ _ HR) as Hl.
  destruct HR as (Hp & He & _). unfold stepHeaders.
  rewrite (indexOf_found _ _ _ l []) by (trivial; lia).
  rewrite len_app, len_cons, len_nil in Hl. pose proof (len_nonneg l).
  destruct (Z.eqb_spec (pos s + len l) (-1)); [lia|].
  destruct (Z.eqb_spec (len (buf s)) (pos s + len l + 1)); [|lia].
  reflexivity.
Qed.

(** A complete line at the cursor. *)
Lemma stepHeaders_line (s : PState) (h : Headers.t) (l q : Uint8Array) :
  Rep s (PHeaders h) (l ++ CR :: LF :: q) -> ~ In CR l ->
  stepHeaders s
  = let line := decode l in
    let s := set_pos s (pos s + len l + 2) in
    if eqb_list line [] then
      match parseContentLength h with
      | None =>
          Throw InvalidContentLength
                {| pos := pos s; buf := buf s; state := state s;
                   headers := headers s; contentLength := Some None;
                   queue := queue s |}
      | Some n =>
          Continue {| pos := pos s; buf := buf s; state := STATE_BODY;
                      headers := headers s; contentLength := Some (Some n);
                      queue := queue s |}
      end
    else
      let colon := strIndexOf line (lit ":") 0 in
      let name := substring line 0 colon in
      if (colon =? len line) || negb (is_code (at_ line (colon + 1)) 32)
      then Throw MalformedHeaderLine_colon s
      else
        let value := substringFrom line (colon + 2) in
        match Headers.append h name value with
        | None => Throw TypeError s
        | Some h' =>
            Continue {| pos := pos s; buf := buf s; state := state s;
                        headers := Some h';
                        contentLength := contentLength s;
                        queue := queue s |}
        end.
Proof.
  intros HR Hn. pose proof (Rep_len _ _ _ HR) as Hl.
  destruct HR as (Hp & He & Hs & Hh). unfold stepHeaders.
  rewrite (indexOf_found _ _ _ l (LF :: q)) by (trivial; lia).
  rewrite len_app, !len_cons in Hl.
  pose proof (len_nonneg l). pose proof (len_nonneg q).
  destruct (Z.eqb_spec (pos s + len l) (-1)); [lia|].
  destruct (Z.eqb_spec (len (buf s)) (pos s + len l + 1)); [lia|].
  simpl orb. cbv iota.
  replace (pos s + len l + 1) with (pos s + (len l + 1)) by lia.
  rewrite at_pending, He by lia.
  replace (Z.to_nat (len l + 1)) with (List.length l + 1)%nat
    by (unfold len; lia).
  rewrite nth_error_app2, Nat.add_comm, Nat.add_sub by lia.
  simpl nth_error. simpl is_code. simpl negb. cbv iota.
  rewrite slice_pending, He, firstn_len_app by lia.
  cbv zeta. cbn [headers set_pos]. rewrite Hh. cbn [option_map].
  replace (pos s + (len l + 1) + 1) with (pos s + len l + 2) by lia.
  destruct (parseContentLength h); reflexivity.
Qed.

(** *** The body pass *)

Lemma stepBody_wait (s : PState) (h : Headers.t) (n : Z) (q : Uint8Array) :
  Rep s (PBody h n) q -> len q < n -> stepBody s = Return s.
Proof.
  intros HR Hq. pose proof (Rep_len _ _ _ HR) as Hl.
  destruct HR as (Hp & He & Hs & Hh & Hc). unfold stepBody.
  rewrite Hc. cbn [toNumber].
  destruct (Z.ltb_spec (len (buf s)) (pos s + n)); [reflexivity|lia].
Qed.

Lemma stepBody_emit (s : PState) (h : Headers.t) (body q : Uint8Array) :
  Rep s (PBody h (len body)) (body ++ q) ->
  exists s',
    stepBody s = Continue s'
    /\ Rep s' PBoundary q
    /\ queue s' = queue s ++ [{| part_headers := Some h;
                                 part_body := body |}].
Proof.
  intros HR. pose proof (Rep_len _ _ _ HR) as Hl.
  destruct HR as (Hp & He & Hs & Hh & Hc). unfold stepBody.
  rewrite Hc. cbn [toNumber]. rewrite len_app in Hl.
  pose proof (len_nonneg body). pose proof (len_nonneg q).
  destruct (Z.ltb_spec (len (buf s)) (pos s + len body)); [lia|].
  eexists. split; [reflexivity|].
  repeat split; simpl; try lia.
  - rewrite skipn_skipn_Z, He by lia. apply skipn_len_app.
  - rewrite Hh, slice_pending, He, firstn_len_app by lia. reflexivity.
Qed.

End WithToken.

End Steps.

(** ** A header line *)

Module HeaderLine.
Import JS Parser Facts StringFacts.

Lemma append_Some (h h' : Headers.t) (name value : JSString) :
  Headers.append h name value = Some h' ->
  Headers.isHeaderName name = true
  /\ h' = h ++ [(name, Headers.normalize value)].
Proof.
  unfold Headers.append. intros H.
  destruct (Headers.isByteString name && Headers.isByteString value);
    [|discriminate].
  destruct (Headers.isHeaderName name); [|discriminate].
  destruct (Headers.isHeaderValue (Headers.normalize value));
    [|discriminate].
  simpl in H. split; congruence.
Qed.

Lemma headerName_no_colon (name : JSString) :
  Headers.isHeaderName name = true -> ~ In 58 name.
Proof.
  intros H Hin. unfold Headers.isHeaderName in H.
  destruct name as [|c name]; [discriminate|].
  rewrite forallb_forall in H. apply H in Hin. discriminate.
Qed.

Lemma strIndexOfAux_colon (name r : JSString) (k : Z) :
  ~ In 58 name -> strIndexOfAux [58] (name ++ 58 :: r) k = k + len name.
Proof.
  revert k. induction name as [|c name IH]; intros k Hn.
  - simpl. rewrite len_nil. lia.
  - simpl app. cbn [strIndexOfAux prefixb].
    destruct (Z.eqb_spec 58 c) as [<-|Hc].
    + exfalso. apply Hn. now left.
    + simpl andb. cbv iota. rewrite IH, len_cons. lia.
      intros Hin. apply Hn. now right.
Qed.

(** The fields that the header pass reads from a line "name: value". *)
Lemma line_fields (name value : JSString) :
  ~ In 58 name ->
  let line := name ++ lit ": " ++ value in
  eqb_list line [] = false
  /\ strIndexOf line (lit ":") 0 = len name
  /\ substring line 0 (len name) = name
  /\ is_code (at_ line (len name + 1)) 32 = true
  /\ substringFrom line (len name + 2) = value.
Proof.
  intros Hn line. subst line. change (lit ": ") with [58; 32].
  change (lit ":") with [58].
  pose proof (len_nonneg name). pose proof (len_nonneg value).
  assert (Hl : len (name ++ [58; 32] ++ value) = len name + 2 + len value).
  { rewrite !len_app, !len_cons, len_nil. lia. }
  repeat split.
  - apply eqb_list_false. destruct name; discriminate.
  - unfold strIndexOf. rewrite clamp_id by lia. simpl skipn.
    now rewrite strIndexOfAux_colon.
  - rewrite substring_prefix by lia. apply firstn_len_app.
  - replace (len name + 1) with (0 + (len name + 1)) by lia.
    rewrite at_pending by lia. simpl skipn.
    replace (Z.to_nat (len name + 1)) with (List.length name + 1)%nat
      by (unfold len; lia).
    rewrite nth_error_app2, Nat.add_comm, Nat.add_sub by lia.
    reflexivity.
  - rewrite substringFrom_skipn by lia.
    replace (name ++ [58; 32] ++ value) with (name ++ [58] ++ [32] ++ value)
      by reflexivity.
    apply skipn_app3. rewrite !len_cons, len_nil. lia.
Qed.

End HeaderLine.

(** ** Draining the buffer of a valid stream *)

Module DrainValid.
Import JS Parser Wire Facts StringFacts Steps HeaderLine.

Section WithToken.

Variable tok : Uint8Array.
Variable strict : bool.

Let midB : Uint8Array := 45 :: 45 :: tok ++ [CR; LF].
Let endB : Uint8Array := 45 :: 45 :: tok ++ [45; 45].

Local Abbreviation TailOf := (Tail midB endB strict).

Ltac solve_len :=
  unfold midB, endB;
  repeat (rewrite len_app || rewrite len_cons || rewrite (@len_nil Z));
  pose proof (len_nonneg tok); lia.

Lemma prefix_of_dash (q l r : Uint8Array) :
  q ++ l = 45 :: r -> prefixb [CR; LF] q = false.
Proof.
  destruct q as [|x q]; intros H; [reflexivity|].
  injection H as -> _. reflexivity.
Qed.

Lemma len_lt_app (q l : Uint8Array) : l <> [] -> len q < len (q ++ l).
Proof.
  intros H. rewrite len_app. destruct l; [contradiction|].
  rewrite len_cons. pose proof (len_nonneg l). lia.
Qed.

(** The boundary pass on a valid stream: it waits for more bytes, enters
    the header block of a part, or passes the end boundary. *)
Lemma boundary_pass (ph : Phase) (R : Uint8Array) (ps : list Part) :
  TailOf ph R ps -> ph = PBoundary ->
  forall s q u, R = q ++ u -> Rep s PBoundary q ->
  (exists s' q',
      stepBoundary midB endB s = Return s' /\ Rep s' PBoundary q'
      /\ TailOf PBoundary (q' ++ u) ps /\ queue s' = queue s
      /\ len q' <= len q /\ u <> [])
  \/ (exists s' q',
        stepBoundary midB endB s = Continue s'
        /\ Rep s' (PHeaders Headers.new) q'
        /\ TailOf (PHeaders Headers.new) (q' ++ u) ps
        /\ queue s' = queue s /\ len q' + 4 <= len q)
  \/ (exists s' q',
        stepBoundary midB endB s = Return s' /\ Rep s' PDone q'
        /\ TailOf PDone (q' ++ u) [] /\ ps = []
        /\ queue s' = queue s /\ len q' <= len q).
Proof.
  induction 1 as [R ps HT IH|R ps HT _|R HT _| | | |]; intros Hph;
    try discriminate; intros s q u HR Hrep.
  - (* a blank line *)
    rewrite blankLine_eq in HR.
    destruct q as [|x [|y q]].
    + left. exists s, []. simpl in HR. subst u. split_and; trivial.
      * apply (stepBoundary_short tok s []); trivial.
        solve_len.
      * simpl. now apply (T_blank midB endB strict).
      * lia.
      * discriminate.
    + left. exists s, [x]. simpl in HR. injection HR as <- <-.
      split_and; trivial.
      * apply (stepBoundary_short tok s [CR]); trivial.
        solve_len.
      * simpl. now apply (T_blank midB endB strict).
      * lia.
      * discriminate.
    + simpl in HR. injection HR as <- <- ->.
      destruct (stepBoundary_skip tok s q Hrep) as [E Hrep'].
      fold midB endB in E. rewrite E.
      destruct (IH eq_refl _ q u eq_refl Hrep')
        as [(s' & q' & H1 & H2 & H3 & H4 & H5 & H6)
           |[(s' & q' & H1 & H2 & H3 & H4 & H5)
            |(s' & q' & H1 & H2 & H3 & H4 & H5 & H6)]].
      * left. exists s', q'. rewrite !len_cons. split_and; trivial. lia.
      * right. left. exists s', q'. rewrite !len_cons.
        split_and; trivial. lia.
      * right. right. exists s', q'. rewrite !len_cons.
        split_and; trivial. lia.
  - (* the boundary of a part *)
    apply app_eq_app in HR as [l [[Hq Hu]|[Hq Hu]]].
    + destruct l as [|c l].
      * rewrite app_nil_r in Hq. simpl in Hu. subst q u.
        right. left.
        destruct (stepBoundary_mid tok s [])
          as (s' & E & Hrep' & Hq'); [now rewrite app_nil_r|].
        exists s', []. split_and; trivial. solve_len.
      * left. exists s, q. subst u. split_and; trivial.
        -- apply (stepBoundary_short tok s q); trivial.
           ++ apply (prefix_of_dash q (c :: l) (45 :: tok ++ [CR; LF])).
              now rewrite <- Hq.
           ++ fold midB. rewrite Hq. now apply len_lt_app.
        -- rewrite app_assoc, <- Hq. now apply (T_mid midB endB strict).
        -- lia.
        -- discriminate.
    + subst q R. right. left.
      destruct (stepBoundary_mid tok s l Hrep) as (s' & E & Hrep' & Hq').
      exists s', l. split_and; trivial.
      solve_len.
  - (* the end boundary *)
    apply app_eq_app in HR as [l [[Hq Hu]|[Hq Hu]]].
    + destruct l as [|c l].
      * rewrite app_nil_r in Hq. simpl in Hu. subst q u.
        right. right.
        destruct (stepBoundary_end tok s [])
          as (s' & E & Hrep' & Hq'); [now rewrite app_nil_r|].
        exists s', []. split_and; trivial. solve_len.
      * left. exists s, q. subst u. split_and; trivial.
        -- apply (stepBoundary_short tok s q); trivial.
           ++ apply (prefix_of_dash q (c :: l) (45 :: tok ++ [45; 45])).
              now rewrite <- Hq.
           ++ rewrite (len_midB tok), <- (len_endB tok). fold endB.
              rewrite Hq. now apply len_lt_app.
        -- rewrite app_assoc, <- Hq. now apply (T_end midB endB strict).
        -- lia.
        -- discriminate.
    + subst q R. right. right.
      destruct (stepBoundary_end tok s l Hrep) as (s' & E & Hrep' & Hq').
      exists s', l. split_and; trivial.
      solve_len.
Qed.

Lemma padding_tail (R : Uint8Array) :
  Padding strict (CR :: LF :: R) -> Padding strict R.
Proof.
  unfold Padding. destruct strict; intros H.
  - now inversion H.
  - now apply Forall_inv_tail, Forall_inv_tail in H.
Qed.

Lemma CRLFs_newlines (R : Uint8Array) : CRLFs R -> Forall isNewline R.
Proof.
  induction 1; constructor; [now right|].
  constructor; [now left|assumption].
Qed.

Lemma padding_newlines (R : Uint8Array) :
  Padding strict R -> Forall isNewline R.
Proof.
  unfold Padding. destruct strict; [apply CRLFs_newlines|trivial].
Qed.

Lemma CRLFs_prefix (q u : Uint8Array) :
  CRLFs (q ++ u) -> prefixb [CR; LF] q = false -> len q < 2.
Proof.
  intros H Hq. destruct q as [|x [|y q]].
  - rewrite len_nil. lia.
  - rewrite len_cons, len_nil. lia.
  - simpl in H. inversion H; subst. discriminate.
Qed.

(** The boundary pass after the end boundary, without a blank line at the
    cursor. *)
Lemma done_noblank (s : PState) (q u : Uint8Array) :
  Rep s PDone q -> Padding strict (q ++ u) ->
  prefixb [CR; LF] q = false ->
  stepBoundary midB endB s = Return s
  \/ (strict = false /\ stepBoundary midB endB s = Throw MalformedBoundary s).
Proof.
  intros Hrep Hpad Hq.
  destruct (Z.lt_ge_cases (len q) (len midB)) as [Hlt|Hge].
  - left. now apply (stepBoundary_short tok s q).
  - right. destruct strict eqn:Es.
    + exfalso. unfold Padding in Hpad. apply CRLFs_prefix in Hpad; trivial.
      revert Hge. solve_len.
    + split; trivial. apply (stepBoundary_newlines tok s q); trivial.
      unfold Padding in Hpad. now apply Forall_app in Hpad.
Qed.

(** The boundary pass after the end boundary. *)
Lemma done_pass (n : nat) (s : PState) (q u : Uint8Array) :
  (List.length q <= n)%nat ->
  Rep s PDone q -> Padding strict (q ++ u) ->
  (exists s' q',
      stepBoundary midB endB s = Return s' /\ Rep s' PDone q'
      /\ Padding strict (q' ++ u) /\ queue s' = queue s
      /\ len q' <= len q)
  \/ (strict = false
      /\ exists s', stepBoundary midB endB s = Throw MalformedBoundary s'
                    /\ queue s' = queue s).
Proof.
  revert s q. induction n as [|n IH]; intros s q Hn Hrep Hpad.
  - destruct q; [|simpl in Hn; lia].
    destruct (done_noblank s [] u Hrep Hpad eq_refl) as [E|[Es E]].
    + left. exists s, []. split_and; trivial. lia.
    + right. split; trivial. now exists s.
  - destruct (prefixb [CR; LF] q) eqn:Eq.
    + apply prefixb_true in Eq as [r ->]. simpl in Hpad, Hn.
      apply padding_tail in Hpad.
      destruct (stepBoundary_skip tok s r Hrep) as [E Hrep'].
      fold midB endB in E. rewrite E.
      destruct (IH _ r ltac:(lia) Hrep' Hpad)
        as [(s' & q' & H1 & H2 & H3 & H4 & H5)|[Es (s' & H1 & H2)]].
      * left. exists s', q'. simpl app. rewrite !len_cons.
        split_and; trivial. lia.
      * right. split; trivial. now exists s'.
    + destruct (done_noblank s q u Hrep Hpad Eq) as [E|[Es E]].
      * left. exists s, q. split_and; trivial. lia.
      * right. split; trivial. now exists s.
Qed.

Lemma tail_headers_inv (h : Headers.t) (R : Uint8Array) (ps : list Part) :
  TailOf (PHeaders h) R ps ->
  (exists h' l name value R',
      ~ In CR l /\ decode l = name ++ lit ": " ++ value
      /\ Headers.append h name value = Some h'
      /\ TailOf (PHeaders h') R' ps /\ R = l ++ [CR; LF] ++ R')
  \/ (exists n R',
        parseContentLength h = Some n /\ 0 <= n
        /\ TailOf (PBody h n) R' ps /\ R = [CR; LF] ++ R').
Proof.
  inversion 1; subst.
  - left. exists h', l, name, value, R0. now split_and.
  - right. exists n, R0. now split_and.
Qed.

Lemma tail_body_inv (h : Headers.t) (n : Z) (R : Uint8Array)
  (ps : list Part) :
  TailOf (PBody h n) R ps ->
  exists body R' ps',
    len body = n /\ TailOf PBoundary R' ps' /\ R = body ++ R'
    /\ ps = {| part_headers := Some h; part_body := body |} :: ps'.
Proof.
  inversion 1; subst. exists body, R0, ps0. now split_and.
Qed.

Lemma tail_done_inv (R : Uint8Array) (ps : list Part) :
  TailOf PDone R ps -> Padding strict R /\ ps = [].
Proof. inversion 1; subst. now split. Qed.

Lemma rep_after_line (s : PState) (h : Headers.t) (l q : Uint8Array)
  (s' : PState) (ph : Phase) :
  Rep s (PHeaders h) (l ++ CR :: LF :: q) ->
  pos s' = pos s + len l + 2 -> buf s' = buf s ->
  match ph with
  | PBoundary | PDone => state s' = STATE_BOUNDARY
  | PHeaders h => state s' = STATE_HEADERS /\ headers s' = Some h
  | PBody h n => state s' = STATE_BODY /\ headers s' = Some h
                 /\ contentLength s' = Some (Some n)
  end ->
  Rep s' ph q.
Proof.
  intros HR Hp Hb Hph. pose proof (Rep_len _ _ _ HR) as Hl.
  destruct HR as (Hpos & He & _).
  rewrite len_app, !len_cons in Hl.
  pose proof (len_nonneg l). pose proof (len_nonneg q).
  unfold Rep. rewrite Hp, Hb. split_and; trivial; try lia.
  replace (pos s + len l + 2) with (pos s + (len l + 2)) by lia.
  rewrite skipn_skipn_Z, He by lia.
  replace (l ++ CR :: LF :: q) with (l ++ [CR] ++ [LF] ++ q) by reflexivity.
  apply skipn_app3. rewrite !len_cons, len_nil. lia.
Qed.

(** The header pass on a valid stream: it waits for the rest of a line, or
    reads a header, or the empty line that ends the header block. *)
Lemma headers_pass (s : PState) (h : Headers.t) (q u : Uint8Array)
  (ps : list Part) :
  Rep s (PHeaders h) q -> TailOf (PHeaders h) (q ++ u) ps ->
  (stepHeaders s = Return s /\ u <> [])
  \/ (exists s' h' q',
        stepHeaders s = Continue s' /\ Rep s' (PHeaders h') q'
        /\ TailOf (PHeaders h') (q' ++ u) ps /\ queue s' = queue s
        /\ len q' + 2 <= len q)
  \/ (exists s' n q',
        stepHeaders s = Continue s' /\ Rep s' (PBody h n) q'
        /\ TailOf (PBody h n) (q' ++ u) ps /\ queue s' = queue s
        /\ len q' + 2 <= len q).
Proof.
  intros Hrep HT.
  destruct (tail_headers_inv _ _ _ HT)
    as [(h' & l & name & value & R' & Hl & Hd & Ha & HT' & Heq)
       |(n & R' & Hc & Hn & HT' & Heq)].
  - apply app_eq_app in Heq as [m [[Hq Hu]|[Hq Hu]]].
    + destruct m as [|x [|y m]].
      * left. rewrite app_nil_r in Hq. subst q. simpl in Hu. split.
        -- now apply (stepHeaders_noCR s h l).
        -- rewrite <- Hu. discriminate.
      * left. simpl in Hu. injection Hu as <- Hu. subst q. split.
        -- now apply (stepHeaders_lastCR s h l).
        -- rewrite <- Hu. discriminate.
      * right. left. simpl in Hu. injection Hu as <- <- ->. subst q.
        rewrite (stepHeaders_line s h l m Hrep Hl). cbv zeta. rewrite Hd.
        destruct (append_Some _ _ _ _ Ha) as [Hname _].
        apply headerName_no_colon in Hname.
        destruct (line_fields name value Hname) as (F1 & F2 & F3 & F4 & F5).
        cbv zeta in F1, F2, F3, F4, F5.
        rewrite F1, F2, F3, F4, F5, Ha.
        assert (Hne : (len name =? len (name ++ lit ": " ++ value)) = false).
        { apply Z.eqb_neq. rewrite !len_app.
          change (len (lit ": ")) with 2. pose proof (len_nonneg value).
          lia. }
        rewrite Hne. simpl orb. cbv iota.
        eexists _, h', m. split; [reflexivity|]. split_and; trivial.
        -- apply (rep_after_line s h l m); trivial.
           simpl. split; trivial. apply Hrep.
        -- rewrite len_app, !len_cons. pose proof (len_nonneg l). lia.
    + left. split.
      * apply (stepHeaders_noCR s h q); trivial.
        intros Hin. apply Hl. rewrite Hq. apply in_or_app. now left.
      * rewrite Hu. destruct m; discriminate.
  - destruct q as [|x [|y q]].
    + left. split.
      * apply (stepHeaders_noCR s h []); trivial. intros [].
      * simpl in Heq. rewrite Heq. discriminate.
    + left. simpl in Heq. injection Heq as -> Hu. split.
      * now apply (stepHeaders_lastCR s h []); trivial; intros [].
      * rewrite Hu. discriminate.
    + right. right. simpl in Heq. injection Heq as -> -> <-.
      assert (Hnil : ~ In CR []) by (intros []).
      rewrite (stepHeaders_line s h [] q Hrep Hnil). cbv zeta.
      change (decode []) with (@nil Z).
      change (eqb_list [] []) with true. cbv iota. rewrite Hc.
      eexists _, n, q. split; [reflexivity|]. split_and; trivial.
      * apply (rep_after_line s h [] q); trivial.
        simpl. split_and; trivial. apply Hrep.
      * rewrite !len_cons. lia.
Qed.

(** The body pass on a valid stream: it waits for the rest of the body, or
    emits the part. *)
Lemma body_pass (s : PState) (h : Headers.t) (n : Z) (q u : Uint8Array)
  (ps : list Part) :
  Rep s (PBody h n) q -> TailOf (PBody h n) (q ++ u) ps ->
  (stepBody s = Return s /\ u <> [])
  \/ (exists s' q' part ps',
        stepBody s = Continue s' /\ Rep s' PBoundary q'
        /\ TailOf PBoundary (q' ++ u) ps' /\ ps = part :: ps'
        /\ queue s' = queue s ++ [part] /\ len q' <= len q).
Proof.
  intros Hrep HT.
  destruct (tail_body_inv _ _ _ _ HT) as (body & R' & ps' & Hn & HT' & Heq & ->).
  subst n. apply app_eq_app in Heq as [m [[Hq Hu]|[Hq Hu]]].
  - right. subst q R'.
    destruct (stepBody_emit s h body m Hrep) as (s' & E & Hrep' & Hq').
    eexists s', m, _, ps'. split_and; trivial.
    rewrite len_app. pose proof (len_nonneg body). lia.
  - destruct m as [|c m].
    + right. rewrite app_nil_r in Hq. simpl in Hu. subst q u.
      destruct (stepBody_emit s h body [])
        as (s' & E & Hrep' & Hq'); [now rewrite app_nil_r|].
      eexists s', [], _, ps'. split_and; trivial.
      rewrite len_nil. apply len_nonneg.
    + left. split.
      * apply (stepBody_wait s h (len body) q); trivial.
        rewrite Hq. now apply len_lt_app.
      * rewrite Hu. discriminate.
Qed.

(** [processBuf] on a valid stream, with [q] the unprocessed bytes and [u]
    the bytes still to come: it returns with the parts that [q] completes
    enqueued; only after the end boundary, and only when the padding is not
    a sequence of CR LF pairs, can it throw instead. *)
Lemma drain (fuel : nat) :
  forall (s : PState) (ph : Phase) (q u : Uint8Array) (ps : list Part),
  Rep s ph q -> TailOf ph (q ++ u) ps ->
  (List.length q + match ph with PBody _ _ => 1 | _ => 0 end < fuel)%nat ->
  (exists s' ph' q' ps',
      processBuf midB endB fuel s = Returned s' /\ Rep s' ph' q'
      /\ TailOf ph' (q' ++ u) ps' /\ queue s' ++ ps' = queue s ++ ps
      /\ len q' <= len q /\ (ph' = PDone \/ u <> []))
  \/ (strict = false
      /\ exists s',
           processBuf midB endB fuel s = Threw MalformedBoundary s'
           /\ queue s' = queue s ++ ps).
Proof.
  induction fuel as [|f IH]; intros s ph q u ps Hrep HT Hm; [lia|].
  cbn [processBuf]. unfold step.
  destruct ph as [|h|h n|].
  - replace (state s) with STATE_BOUNDARY by (symmetry; apply Hrep).
    destruct (boundary_pass _ _ _ HT eq_refl s q u eq_refl Hrep)
      as [(s' & q' & H1 & H2 & H3 & H4 & H5 & H6)
         |[(s' & q' & H1 & H2 & H3 & H4 & H5)
          |(s' & q' & H1 & H2 & H3 & H4 & H5 & H6)]]; rewrite H1.
    + left. exists s', PBoundary, q', ps. split_and; trivial.
      * now rewrite H4.
      * now right.
    + destruct (IH s' _ q' u ps H2 H3)
        as [(s2 & ph2 & q2 & ps2 & G1 & G2 & G3 & G4 & G5 & G6)
           |[Es (s2 & G1 & G2)]].
      * unfold len in H5. lia.
      * left. exists s2, ph2, q2, ps2. split_and; trivial.
        -- now rewrite G4, H4.
        -- lia.
      * right. split; trivial. exists s2. split; trivial.
        now rewrite G2, H4.
    + left. exists s', PDone, q', []. subst ps. split_and; trivial.
      * now rewrite H5.
      * now left.
  - replace (state s) with STATE_HEADERS by (symmetry; apply Hrep).
    destruct (headers_pass s h q u ps Hrep HT)
      as [[H1 H2]
         |[(s' & h' & q' & H1 & H2 & H3 & H4 & H5)
          |(s' & n & q' & H1 & H2 & H3 & H4 & H5)]]; rewrite H1.
    + left. exists s, (PHeaders h), q, ps. split_and; trivial.
      * lia.
      * now right.
    + destruct (IH s' _ q' u ps H2 H3)
        as [(s2 & ph2 & q2 & ps2 & G1 & G2 & G3 & G4 & G5 & G6)
           |[Es (s2 & G1 & G2)]].
      * unfold len in H5. lia.
      * left. exists s2, ph2, q2, ps2. split_and; trivial.
        -- now rewrite G4, H4.
        -- lia.
      * right. split; trivial. exists s2. split; trivial.
        now rewrite G2, H4.
    + destruct (IH s' _ q' u ps H2 H3)
        as [(s2 & ph2 & q2 & ps2 & G1 & G2 & G3 & G4 & G5 & G6)
           |[Es (s2 & G1 & G2)]].
      * unfold len in H5. lia.
      * left. exists s2, ph2, q2, ps2. split_and; trivial.
        -- now rewrite G4, H4.
        -- lia.
      * right. split; trivial. exists s2. split; trivial.
        now rewrite G2, H4.
  - replace (state s) with STATE_BODY by (symmetry; apply Hrep).
    destruct (body_pass s h n q u ps Hrep HT)
      as [[H1 H2]|(s' & q' & part & ps' & H1 & H2 & H3 & H4 & H5 & H6)];
      rewrite H1.
    + left. exists s, (PBody h n), q, ps. split_and; trivial.
      * lia.
      * now right.
    + destruct (IH s' _ q' u ps' H2 H3)
        as [(s2 & ph2 & q2 & ps2 & G1 & G2 & G3 & G4 & G5 & G6)
           |[Es (s2 & G1 & G2)]].
      * unfold len in H6. lia.
      * left. exists s2, ph2, q2, ps2. split_and; trivial.
        -- rewrite G4, H5, H4, <- app_assoc. reflexivity.
        -- lia.
      * right. split; trivial. exists s2. split; trivial.
        rewrite G2, H5, H4, <- app_assoc. reflexivity.
  - replace (state s) with STATE_BOUNDARY by (symmetry; apply Hrep).
    destruct (tail_done_inv _ _ HT) as [Hpad ->].
    destruct (done_pass (List.length q) s q u (le_n _) Hrep Hpad)
      as [(s' & q' & H1 & H2 & H3 & H4 & H5)|[Es (s' & H1 & H2)]];
      rewrite H1.
    + left. exists s', PDone, q', []. split_and; trivial.
      * now apply (T_done midB endB strict).
      * now rewrite H4.
      * now left.
    + right. split; trivial. exists s'. split; trivial.
      now rewrite app_nil_r.
Qed.

Lemma tail_boundary_nonempty (R : Uint8Array) (ps : list Part) :
  TailOf PBoundary R ps -> R <> [].
Proof. inversion 1; discriminate. Qed.

End WithToken.

(** *** The loop of [start] *)

Lemma set_spec (a x c src : Uint8Array) :
  List.length x = List.length src ->
  set (a ++ x ++ c) src (len a) = Some (a ++ src ++ c).
Proof.
  intros Hx. unfold set. pose proof (len_nonneg a).
  destruct (Z.ltb_spec (len a) 0); [lia|].
  rewrite !len_app.
  assert (Hl : len x = len src) by (unfold len; lia).
  pose proof (len_nonneg c).
  destruct (Z.ltb_spec (len a + (len x + len c)) (len a + len src)); [lia|].
  simpl orb. cbv iota. rewrite firstn_len_app. f_equal. f_equal. f_equal.
  replace (a ++ x ++ c) with (a ++ x ++ [] ++ c) by reflexivity.
  apply skipn_app3. rewrite len_nil. lia.
Qed.

Lemma addChunk_pending (s : PState) (value : Uint8Array) :
  0 <= pos s <= len (buf s) ->
  addChunk s value = Some (skipn (Z.to_nat (pos s)) (buf s) ++ value).
Proof.
  intros Hp. unfold addChunk.
  pose proof (len_skipn (buf s) (pos s) Hp) as Hl.
  rewrite sliceFrom_pending by trivial.
  set (q := skipn (Z.to_nat (pos s)) (buf s)) in *.
  rewrite <- Hl.
  destruct (Z.eqb_spec (len q) 0) as [E|E].
  - destruct q; [reflexivity|]. rewrite len_cons in E.
    pose proof (len_nonneg q). lia.
  - unfold newUint8Array.
    pose proof (len_nonneg value). pose proof (len_nonneg q).
    destruct (Z.ltb_spec (len q + len value) 0); [lia|].
    replace (Z.to_nat (len q + len value))
      with (List.length q + List.length value)%nat by (unfold len; lia).
    rewrite repeat_app.
    pose proof (set_spec [] (repeat 0 (List.length q))
                  (repeat 0 (List.length value)) q) as S1.
    simpl app in S1. change (len []) with 0 in S1.
    rewrite S1 by apply repeat_length.
    pose proof (set_spec q (repeat 0 (List.length value)) [] value) as S2.
    rewrite !app_nil_r in S2. apply S2, repeat_length.
Qed.

(** Trimming newline bytes either consumes all the unprocessed bytes, or
    stops with some of them left. *)
Lemma trimNewlines_spec (b : Uint8Array) (q : Uint8Array) :
  forall (n : nat) (p : Z),
  0 <= p -> skipn (Z.to_nat p) b = q -> (List.length q <= n)%nat ->
  (Forall isNewline q /\ trimNewlines n b p (len q) = (p + len q, 0))
  \/ (~ Forall isNewline q
      /\ exists p' k, trimNewlines n b p (len q) = (p', k) /\ 0 < k).
Proof.
  induction q as [|x q IH]; intros n p Hp Hq Hn.
  - left. split; [constructor|]. rewrite len_nil.
    destruct n; simpl; f_equal; lia.
  - destruct n as [|n]; [simpl in Hn; lia|]. simpl in Hn.
    cbn [trimNewlines]. pose proof (len_nonneg q).
    destruct (Z.gtb_spec (len (x :: q)) 0); [|rewrite len_cons in *; lia].
    assert (Hat : at_ b p = Some x).
    { replace p with (p + 0) by lia. rewrite at_pending, Hq by lia.
      reflexivity. }
    rewrite Hat. cbn [andb existsb is_code orb].
    assert (Hq' : skipn (Z.to_nat (p + 1)) b = q).
    { rewrite skipn_skipn_Z, Hq by lia. reflexivity. }
    destruct (Z.eqb_spec x 10) as [->|H10].
    + replace (len (10 :: q) - 1) with (len q)
        by (rewrite len_cons; lia).
      destruct (IH n (p + 1) ltac:(lia) Hq' ltac:(lia))
        as [[Hf E]|[Hf (p' & k & E & Hk)]].
      * left. split; [constructor; [now left|assumption]|].
        rewrite E, len_cons.
           replace (p + (1 + len q)) with (p + 1 + len q) by lia.
           reflexivity.
      * right. split; [intros F; now apply Forall_inv_tail in F|].
        now exists p', k.
    + destruct (Z.eqb_spec x 13) as [->|H13].
      * replace (len (13 :: q) - 1) with (len q)
          by (rewrite len_cons; lia).
        destruct (IH n (p + 1) ltac:(lia) Hq' ltac:(lia))
          as [[Hf E]|[Hf (p' & k & E & Hk)]].
        -- left. split; [constructor; [now right|assumption]|].
           rewrite E, len_cons.
           replace (p + (1 + len q)) with (p + 1 + len q) by lia.
           reflexivity.
        -- right. split; [intros F; now apply Forall_inv_tail in F|].
           now exists p', k.
      * right. split.
        -- intros F. apply Forall_inv in F. destruct F; contradiction.
        -- simpl. exists p, (len (x :: q)). split; trivial; lia.
Qed.

Section Loop.

Variable tok : Uint8Array.
Variable strict : bool.

Let midB : Uint8Array := 45 :: 45 :: tok ++ [CR; LF].
Let endB : Uint8Array := 45 :: 45 :: tok ++ [45; 45].

Local Abbreviation TailOf := (Tail midB endB strict).

(** The loop of [start] on the chunks of a valid stream: the parts of the
    stream are emitted and the stream is closed; only when the padding after
    the end boundary is not a sequence of CR LF pairs can the loop end with
    the error of a bad boundary instead. *)
Lemma mainLoop_valid (fuel : nat) :
  forall (chunks : list Uint8Array) (s : PState) (ph : Phase)
         (q : Uint8Array) (ps : list Part) (nreads : nat),
  Rep s ph q -> TailOf ph (q ++ List.concat chunks) ps ->
  (List.length q + List.length (List.concat chunks) + 2 <= fuel)%nat ->
  ph = PDone \/ List.concat chunks <> [] ->
  let r := mainLoop midB endB fuel chunks s nreads in
  emitted r = queue s ++ ps
  /\ (outcome r = Closed
      \/ (strict = false /\ outcome r = Errored MalformedBoundary)).
Proof.
  induction chunks as [|c rest IH]; intros s ph q ps nreads Hrep HT Hf Hd r.
  - destruct Hd as [->|Hd]; [|now contradiction Hd].
    simpl List.concat in HT. rewrite app_nil_r in HT.
    destruct (tail_done_inv _ _ _ _ HT) as [Hpad ->].
    apply padding_newlines in Hpad.
    pose proof (Rep_len _ _ _ Hrep) as Hl.
    destruct Hrep as (Hp & He & Hs).
    subst r. cbn [mainLoop].
    replace (len (buf s) - pos s) with (len q) by lia.
    destruct (trimNewlines_spec (buf s) q (Z.to_nat (len q)) (pos s)
                ltac:(lia) He ltac:(unfold len; lia))
      as [[_ E]|[Hn _]]; [|contradiction].
    rewrite E. cbn [emitted outcome set_pos queue state]. rewrite Hs.
    rewrite app_nil_r. split; [reflexivity|]. left. reflexivity.
  - subst r. cbn [mainLoop]. simpl List.concat in HT, Hf.
    pose proof Hrep as (Hp & He & Hs).
    rewrite (addChunk_pending s c Hp), He.
    set (s1 := {| pos := 0; buf := q ++ c; state := state s;
                  headers := headers s; contentLength := contentLength s;
                  queue := queue s |}).
    assert (Hrep1 : Rep s1 ph (q ++ c)).
    { unfold Rep. simpl. split_and; trivial; try lia. apply len_nonneg. }
    rewrite app_assoc in HT. rewrite length_app in Hf.
    destruct (drain tok strict fuel s1 ph (q ++ c) (List.concat rest) ps Hrep1 HT)
      as [(s' & ph' & q' & ps' & G1 & G2 & G3 & G4 & G5 & G6)
         |[Es (s' & G1 & G2)]].
    + rewrite length_app. destruct ph; lia.
    + fold midB endB in G1. rewrite G1.
      destruct (IH s' ph' q' ps' (S nreads) G2 G3) as [I1 I2]; trivial.
      * unfold len in G5. rewrite length_app in G5. lia.
      * split; trivial. rewrite I1, G4. reflexivity.
    + fold midB endB in G1. rewrite G1. simpl. split; trivial.
      right. now split.
Qed.

End Loop.

End DrainValid.

(** ** UTF-8 of byte strings *)

Module Utf8.
Import JS Facts.

(** Every code unit from 128 to 255 is encoded in two bytes, none of them a
    CR, and decoded from them. *)
Lemma two_bytes_nat (k : nat) :
  (k < 128)%nat ->
  let c := 128 + Z.of_nat k in
  ~ In CR (utf8_of_cp c)
  /\ forall rest,
       utf8_run utf8_init (utf8_of_cp c ++ rest)
       = c :: utf8_run utf8_init rest.
Proof.
  intros Hk.
  do 128 (destruct k as [|k];
          [split; [intros [H|[H|[]]]; discriminate|intros rest; reflexivity]
          |]).
  lia.
Qed.

Lemma utf8_byte (c : Z) :
  0 <= c <= 255 -> c <> CR ->
  ~ In CR (utf8_of_cp c)
  /\ forall rest,
       utf8_run utf8_init (utf8_of_cp c ++ rest)
       = c :: utf8_run utf8_init rest.
Proof.
  intros Hc Hcr. destruct (Z.lt_ge_cases c 128) as [Hlt|Hge].
  - unfold utf8_of_cp. destruct (Z.ltb_spec c 128); [|lia]. split.
    + intros [E|[]]. congruence.
    + intros rest. simpl app. cbn [utf8_run].
      unfold utf8_step. change (needed utf8_init =? 0) with true. cbv iota.
      unfold utf8_lead. destruct (Z.leb_spec c 127); [|lia]. reflexivity.
  - pose proof (two_bytes_nat (Z.to_nat (c - 128)) ltac:(lia)) as H.
    cbv zeta in H. now replace (128 + Z.of_nat (Z.to_nat (c - 128))) with c
      in H by lia.
Qed.

Lemma isByteString_forall (s : JSString) :
  Headers.isByteString s = true <-> Forall (fun c => 0 <= c <= 255) s.
Proof.
  unfold Headers.isByteString. rewrite forallb_forall, Forall_forall.
  split; intros H c Hin; specialize (H c Hin).
  - apply andb_prop in H as [H1 H2].
    apply Z.leb_le in H1. apply Z.leb_le in H2. lia.
  - apply andb_true_intro. split; apply Z.leb_le; lia.
Qed.

Lemma encode_bytes (s : JSString) :
  Forall (fun c => 0 <= c <= 255) s -> encode s = flat_map utf8_of_cp s.
Proof.
  induction 1 as [|c s Hc _ IH]; [reflexivity|].
  rewrite BoundaryLines.encode_cons. unfold is_high, is_low.
  destruct (Z.leb_spec 55296 c); [lia|].
  destruct (Z.leb_spec 56320 c); [lia|].
  simpl andb. cbv iota. simpl flat_map. now rewrite IH.
Qed.

Lemma encode_no_CR (s : JSString) :
  Forall (fun c => 0 <= c <= 255) s -> ~ In CR s -> ~ In CR (encode s).
Proof.
  intros Hs Hn. rewrite encode_bytes by trivial.
  intros Hin. apply in_flat_map in Hin as (c & Hc & Hin).
  rewrite Forall_forall in Hs.
  destruct (utf8_byte c (Hs c Hc)) as [H _]; [|contradiction].
  intros ->. contradiction.
Qed.

Lemma utf8_run_bytes (s : JSString) :
  Forall (fun c => 0 <= c <= 255) s -> ~ In CR s ->
  utf8_run utf8_init (encode s) = s.
Proof.
  intros Hs Hn. rewrite encode_bytes by trivial.
  induction Hs as [|c s Hc _ IH]; [reflexivity|].
  simpl flat_map.
  destruct (utf8_byte c Hc) as [_ H].
  - intros ->. apply Hn. now left.
  - rewrite <- (app_nil_r (flat_map utf8_of_cp s)), H, app_nil_r.
    rewrite IH; trivial. intros Hin. apply Hn. now right.
Qed.

Lemma utf16_bytes (s : JSString) :
  Forall (fun c => 0 <= c <= 255) s -> flat_map utf16_of_cp s = s.
Proof.
  induction 1 as [|c s Hc _ IH]; [reflexivity|].
  simpl. rewrite IH. unfold utf16_of_cp.
  destruct (Z.ltb_spec c 65536); [reflexivity|lia].
Qed.

(** A byte string without CR is read back from its encoding. *)
Lemma decode_encode (s : JSString) :
  Forall (fun c => 0 <= c <= 255) s -> ~ In CR s ->
  decode (encode s) = s.
Proof.
  intros Hs Hn. unfold decode. rewrite utf8_run_bytes by trivial.
  assert (Hb : stripBOM s = s).
  { destruct s as [|c s]; [reflexivity|]. simpl.
    apply Forall_inv in Hs.
    destruct (Z.eqb_spec c 65279); [lia|reflexivity]. }
  rewrite Hb. now apply utf16_bytes.
Qed.

End Utf8.

(** ** Valid streams *)

Module ValidStreams.
Import JS Parser Wire Facts StringFacts BoundaryLines Steps HeaderLine
       DrainValid Utf8.

(** [start] on the chunks of a valid stream. *)
Lemma start_valid (strict : bool) (ct b : JSString) (stream : Uint8Array)
  (parts : list Part) (chunks : list Uint8Array) (fuel : nat) :
  getBoundary ct = Some b ->
  Valid strict b stream parts ->
  List.concat chunks = stream ->
  (List.length stream + 2 <= fuel)%nat ->
  emitted (start fuel ct chunks) = parts
  /\ (outcome (start fuel ct chunks) = Closed
      \/ (strict = false
          /\ outcome (start fuel ct chunks) = Errored MalformedBoundary)).
Proof.
  intros Hb Hv Hc Hf. unfold start. rewrite Hb.
  unfold Valid in Hv.
  rewrite (midBoundaryOf_eq b), (endBoundaryOf_eq b) in Hv.
  rewrite (midBoundaryOf_eq b), (endBoundaryOf_eq b).
  assert (Hrep : Rep initial PBoundary []).
  { unfold Rep, initial. simpl. split_and; trivial;
      unfold len; simpl; lia. }
  subst stream.
  apply (mainLoop_valid (encode b) strict fuel chunks initial PBoundary []
           parts O Hrep Hv).
  - simpl. lia.
  - right. now apply tail_boundary_nonempty in Hv.
Qed.

(** *** The streams that the encoder writes *)

Lemma isTchar_range (c : Z) : Headers.isTchar c = true -> 33 <= c <= 126.
Proof.
  unfold Headers.isTchar, Headers.isAlnum. intros H.
  apply orb_prop in H as [H|H].
  - repeat match goal with
           | H : (_ || _) = true |- _ => apply orb_prop in H as [H|H]
           | H : (_ && _) = true |- _ =>
               let H1 := fresh in let H2 := fresh in
               apply andb_prop in H as [H1 H2];
               apply Z.leb_le in H1; apply Z.leb_le in H2
           end; lia.
  - apply existsb_exists in H as (x & Hin & Hx).
    apply Z.eqb_eq in Hx. subst x.
    let l := eval vm_compute in (lit "!#$%&'*+-.^_`|~") in
    change (lit "!#$%&'*+-.^_`|~") with l in Hin.
    simpl in Hin. lia.
Qed.

Lemma headerName_tchars (n : JSString) :
  Headers.isHeaderName n = true -> Forall (fun c => 33 <= c <= 126) n.
Proof.
  unfold Headers.isHeaderName. destruct n as [|c n]; [discriminate|].
  intros H. rewrite forallb_forall in H. apply Forall_forall.
  intros x Hx. now apply isTchar_range, H.
Qed.

Lemma headerValue_no_CR (v : JSString) :
  Headers.isHeaderValue v = true -> ~ In CR v.
Proof.
  unfold Headers.isHeaderValue. intros H Hin.
  rewrite forallb_forall in H. apply H in Hin. discriminate.
Qed.

Lemma validHeader_line (n v : JSString) :
  validHeader (n, v) ->
  Forall (fun c => 0 <= c <= 255) (n ++ lit ": " ++ v)
  /\ ~ In CR (n ++ lit ": " ++ v).
Proof.
  intros (Hn & Hb & Hv & _). simpl in *.
  apply headerName_tchars in Hn. apply isByteString_forall in Hb.
  apply headerValue_no_CR in Hv. split.
  - apply Forall_app. split.
    + eapply Forall_impl; [|exact Hn]. simpl. lia.
    + constructor; [lia|]. constructor; [lia|assumption].
  - intros Hin. apply in_app_or in Hin as [Hin|Hin].
    + rewrite Forall_forall in Hn. apply Hn in Hin. unfold CR in Hin. lia.
    + destruct Hin as [H|[H|H]]; [discriminate|discriminate|contradiction].
Qed.

Lemma validHeader_append (h : Headers.t) (n v : JSString) :
  validHeader (n, v) -> Headers.append h n v = Some (h ++ [(n, v)]).
Proof.
  intros (Hn & Hb & Hv & Hnorm). simpl in *.
  unfold Headers.append. rewrite Hnorm, Hn, Hv, Hb.
  assert (Hnb : Headers.isByteString n = true).
  { apply isByteString_forall. apply headerName_tchars in Hn.
    eapply Forall_impl; [|exact Hn]. simpl. lia. }
  now rewrite Hnb.
Qed.


Section Encoded.

Variables midBoundary endBoundary : Uint8Array.
Variable strict : bool.

Lemma encodeHeaders_tail (hs : list Header) :
  forall (h0 : Headers.t) (R : Uint8Array) (ps : list Part),
  Forall validHeader hs ->
  Tail midBoundary endBoundary strict (PHeaders (h0 ++ hs)) R ps ->
  Tail midBoundary endBoundary strict (PHeaders h0)
       (flat_map encodeHeader hs ++ R) ps.
Proof.
  induction hs as [|[n v] hs IH]; intros h0 R ps Hv HT.
  - simpl. now rewrite app_nil_r in HT.
  - pose proof (Forall_inv Hv) as Hnv. apply Forall_inv_tail in Hv.
    destruct (validHeader_line n v Hnv) as [Hbytes Hcr].
    simpl flat_map. unfold encodeHeader at 1. simpl fst. simpl snd.
    rewrite <- !app_assoc.
    apply (T_line midBoundary endBoundary strict h0 (h0 ++ [(n, v)])
             (encode (n ++ lit ": " ++ v)) n v).
    + now apply encode_no_CR.
    + now apply decode_encode.
    + now apply validHeader_append.
    + apply IH; trivial. now rewrite <- app_assoc.
Qed.

End Encoded.

(** The encoder writes valid streams, whose parts are the pairs encoded;
    they stay valid with CR LF pairs added at the end. *)
Lemma encodeStream_padded_valid (b : JSString)
  (pairs : list (list Header * Uint8Array)) (pad : Uint8Array) :
  Forall validPair pairs -> CRLFs pad ->
  Valid true b (encodeStream b pairs ++ pad) (map partOf pairs).
Proof.
  unfold Valid, encodeStream. intros Hv Hpad.
  induction Hv as [|[hs body] pairs [Hhs Hcl] _ IH].
  - cbn [flat_map map]. change ([] ++ endBoundaryOf b) with (endBoundaryOf b).
    exact (T_end (midBoundaryOf b) (endBoundaryOf b) true pad
             (T_done _ _ true pad Hpad)).
  - cbn [fst snd] in Hhs, Hcl. cbn [flat_map map].
    unfold encodePart at 1. cbn [fst snd].
    rewrite <- !app_assoc. rewrite <- app_assoc in IH.
    apply T_mid. apply encodeHeaders_tail; trivial.
    apply (T_endHeaders _ _ _ _ (len body)); trivial.
    + apply len_nonneg.
    + now apply (T_body _ _ _ hs (len body) body).
Qed.

Lemma encodeStream_valid (b : JSString)
  (pairs : list (list Header * Uint8Array)) :
  Forall validPair pairs ->
  Valid true b (encodeStream b pairs) (map partOf pairs).
Proof.
  intros Hv. rewrite <- (app_nil_r (encodeStream b pairs)).
  apply encodeStream_padded_valid; [exact Hv|constructor].
Qed.

End ValidStreams.

(** ** The properties of the specification *)

Module Spec.
Import JS Parser Wire Facts StringFacts Boundary BoundaryLines Steps
       HeaderLine DrainValid Utf8 ValidStreams.

(** C8, the worked example: with content type
    [multipart/x-mixed-replace; boundary=X], the stream
    [--X\r\nContent-Length: 5\r\n\r\nhello--X--] delivered in one chunk and
    then the end of the source gives exactly one part, whose header
    Content-Length is 5 and whose body is the five bytes of "hello", and
    the output stream is closed.  Ten passes of the loop of [processBuf]
    are enough, and more change nothing. *)
Theorem worked_example (fuel : nat) :
  let r := start (10 + fuel) Examples.ct [Examples.worked] in
  emitted r = [Examples.worked_part]
  /\ outcome r = Closed
  /\ Headers.get [(lit "Content-Length", lit "5")] (lit "Content-Length")
     = Some (lit "5")
  /\ part_body Examples.worked_part = [104; 101; 108; 108; 111].
Proof. vm_compute. repeat split. Qed.

(** C6, boundary extraction: [getBoundary] succeeds exactly on the strings
    that begin with "multipart/" and contain "; boundary=" after that
    prefix; the token it returns is the rest of the string after the first
    such marker, unchanged; and when it fails, [start] ends the output
    stream with InvalidContentType, having enqueued nothing and issued no
    read, whatever the source holds. *)
Theorem boundary_extraction (contentType : JSString) :
  (getBoundary contentType <> None <->
   exists sub tok,
     contentType = MULTIPART_TYPE ++ sub ++ BOUNDARY_PARAM ++ tok)
  /\ (forall tok,
        getBoundary contentType = Some tok <->
        exists sub,
          contentType = MULTIPART_TYPE ++ sub ++ BOUNDARY_PARAM ++ tok
          /\ forall sub' tok',
               contentType
               = MULTIPART_TYPE ++ sub' ++ BOUNDARY_PARAM ++ tok' ->
               len sub <= len sub')
  /\ (getBoundary contentType = None ->
      forall fuel chunks,
        outcome (start fuel contentType chunks) = Errored InvalidContentType
        /\ reads (start fuel contentType chunks) = O
        /\ emitted (start fuel contentType chunks) = []).
Proof.
  split; [|split].
  - split.
    + intros H. destruct (getBoundary contentType) as [tok|] eqn:E;
        [|contradiction].
      apply getBoundary_Some in E as (sub & E & _). now exists sub, tok.
    + intros H E. apply getBoundary_None in E. contradiction.
  - intros tok. apply getBoundary_Some.
  - intros E fuel chunks. unfold start. rewrite E. now split_and.
Qed.

(** C10, a part of length 0: in READING_BODY with a Content-Length of 0, the
    pass of the loop emits a part with the current headers and an empty
    body whatever the buffer holds beyond the cursor, even nothing, and
    leaves the parser in AWAITING_BOUNDARY with the cursor where it was;
    [processBuf] then goes on from there in the same call. *)
Theorem empty_body_emitted (midBoundary endBoundary : Uint8Array)
  (s : PState) (h : Headers.t) :
  state s = STATE_BODY -> headers s = Some h ->
  contentLength s = Some (Some 0) -> 0 <= pos s <= len (buf s) ->
  let s' := {| pos := pos s; buf := buf s; state := STATE_BOUNDARY;
               headers := None; contentLength := None;
               queue := queue s ++ [{| part_headers := Some h;
                                       part_body := [] |}] |} in
  step midBoundary endBoundary s = Continue s'
  /\ forall fuel,
       processBuf midBoundary endBoundary (S fuel) s
       = processBuf midBoundary endBoundary fuel s'.
Proof.
  intros Hs Hh Hc Hp s'.
  assert (E : step midBoundary endBoundary s = Continue s').
  { unfold step. rewrite Hs. unfold stepBody. rewrite Hc. cbn [toNumber].
    destruct (Z.ltb_spec (len (buf s)) (pos s + 0)); [lia|].
    rewrite slice_pending by lia. simpl firstn. rewrite Hh.
    subst s'. now rewrite Z.add_0_r. }
  split; [exact E|]. intros fuel. cbn [processBuf]. now rewrite E.
Qed.

Lemma empty_body_emitted_witness :
  step (midBoundaryOf (lit "X")) (endBoundaryOf (lit "X"))
       Examples.before_empty_body
  = Continue {| pos := 26; buf := buf Examples.before_empty_body;
                state := STATE_BOUNDARY; headers := None;
                contentLength := None;
                queue := [Examples.empty_part] |}.
Proof.
  apply (empty_body_emitted (midBoundaryOf (lit "X"))
           (endBoundaryOf (lit "X")) Examples.before_empty_body
           [(lit "Content-Length", lit "0")]);
    [reflexivity|reflexivity|reflexivity|vm_compute; split; discriminate].
Defined.

(** *** Content-Length *)

(** What [parseInt] makes of some values, and of a missing header. *)
Lemma parseContentLength_examples :
  parseContentLength [] = None
  /\ parseContentLength [(lit "Content-Length", lit "abc")] = None
  /\ parseContentLength [(lit "Content-Length", lit "")] = None
  /\ parseContentLength [(lit "Content-Length", lit "5")] = Some 5
  /\ parseContentLength [(lit "content-length", lit "5")] = Some 5
  /\ parseContentLength [(lit "Content-Length", lit "5abc")] = Some 5
  /\ parseContentLength [(lit "Content-Length", lit "-5")] = Some (-5).
Proof. vm_compute. repeat split. Qed.

(** A header block without a usable Content-Length: the empty line that
    ends it throws InvalidContentLength. *)
Lemma invalid_content_length (midBoundary endBoundary : Uint8Array)
  (s : PState) (h : Headers.t) (q : Uint8Array) :
  Rep s (PHeaders h) (CR :: LF :: q) -> parseContentLength h = None ->
  exists s', step midBoundary endBoundary s = Throw InvalidContentLength s'.
Proof.
  intros Hrep Hc. unfold step.
  replace (state s) with STATE_HEADERS by (symmetry; apply Hrep).
  assert (Hnil : ~ In CR []) by (intros []).
  rewrite (stepHeaders_line s h [] q Hrep Hnil). cbv zeta.
  change (decode []) with (@nil Z). change (eqb_list [] []) with true.
  cbv iota. rewrite Hc. now eexists.
Qed.

(** C3, at a part that declares [Content-Length: -5]: the value parses to
    -5, which is not NaN, so the parser does not fail with
    InvalidContentLength; it enters READING_BODY, emits a part with an empty
    body, moves the cursor five bytes back, and fails there with
    MalformedBoundary. *)
Theorem negative_content_length_accepted (fuel : nat) :
  let r := start (10 + fuel) Examples.ct [Examples.negative] in
  parseContentLength [(lit "Content-Length", lit "-5")] = Some (-5)
  /\ emitted r = [Examples.negative_part]
  /\ outcome r = Errored MalformedBoundary
  /\ len Examples.negative = 27 /\ pos (final r) = 22.
Proof. vm_compute. repeat split. Qed.

(** *** The cursor *)

Lemma skipBlank_range (n : nat) (b : Uint8Array) (p : Z) :
  0 <= p <= len b -> 0 <= skipBlank n b p <= len b.
Proof.
  revert p. induction n as [|n IH]; intros p Hp; simpl; trivial.
  rewrite len_blankLine.
  destruct (Z.geb_spec (len b) (p + 2)); simpl; trivial.
  destruct (compareArrays _ _); trivial. apply IH. lia.
Qed.

Lemma indexOfAux_range (x : Z) (a : list Z) (k : Z) :
  indexOfAux x a k = -1 \/ k <= indexOfAux x a k < k + len a.
Proof.
  revert k. induction a as [|y a IH]; intros k; simpl; [now left|].
  rewrite len_cons. pose proof (len_nonneg a).
  destruct (y =? x); [right; lia|].
  destruct (IH (k + 1)) as [E|E]; [now left|right; lia].
Qed.

Lemma indexOf_range (b : Uint8Array) (x p : Z) :
  0 <= p <= len b -> indexOf b x p = -1 \/ p <= indexOf b x p < len b.
Proof.
  intros Hp. unfold indexOf. destruct (Z.ltb_spec p 0); [lia|].
  destruct (indexOfAux_range x (skipn (Z.to_nat p) b) p) as [E|E];
    [now left|right].
  rewrite len_skipn in E by trivial. lia.
Qed.

(** A pass of the loop keeps the cursor within the buffer, as long as the
    content length in force is not negative. *)
Lemma step_cursor (midBoundary endBoundary : Uint8Array) (s : PState) :
  0 <= pos s <= len (buf s) ->
  (forall n, contentLength s = Some (Some n) -> 0 <= n) ->
  match step midBoundary endBoundary s with
  | Continue s' | Return s' | Throw _ s' =>
      0 <= pos s' <= len (buf s') /\ buf s' = buf s
  end.
Proof.
  intros Hp Hc. unfold step. destruct (state s).
  - unfold stepBoundary.
    pose proof (skipBlank_range (Z.to_nat (len (buf s) - pos s)) (buf s)
                  (pos s) Hp) as Hk.
    set (p := skipBlank _ _ _) in *. cbn [buf set_pos].
    pose proof (len_nonneg midBoundary). pose proof (len_nonneg endBoundary).
    destruct (Z.ltb_spec (len (buf s)) (p + len midBoundary));
      [now split|].
    destruct (compareArrays (slice (buf s) p (p + len midBoundary))
                midBoundary); simpl negb; cbv iota.
    + simpl. split; [lia|reflexivity].
    + destruct (compareArrays (slice (buf s) p (p + len endBoundary))
                  endBoundary) eqn:E; [|now split].
      apply compareArrays_eq in E. simpl. split; [|reflexivity].
      rewrite slice_pending in E by lia.
      assert (Hl : len (firstn (Z.to_nat (len endBoundary))
                          (skipn (Z.to_nat p) (buf s))) = len endBoundary)
        by now rewrite E.
      unfold len in Hl |- *. rewrite length_firstn, length_skipn in Hl.
      unfold len in Hk. lia.
  - unfold stepHeaders.
    destruct (indexOf_range (buf s) CR (pos s) Hp) as [E|E].
    + rewrite E. simpl. now split.
    + set (cr := indexOf (buf s) CR (pos s)) in *.
      destruct (Z.eqb_spec cr (-1)) as [E1|E1]; [lia|].
      destruct (Z.eqb_spec (len (buf s)) (cr + 1)) as [E2|E2];
        [simpl; now split|].
      simpl orb. cbv iota.
      destruct (negb (is_code (at_ (buf s) (cr + 1)) LF)); [now split|].
      cbv zeta. cbn [headers set_pos pos buf queue state contentLength].
      assert (Hr : 0 <= cr + 2 <= len (buf s)) by lia.
      destruct (eqb_list _ []).
      * destruct (option_map parseContentLength (headers s)) as [[k|]|];
          now split.
      * destruct (_ || _); [now split|].
        destruct (headers s) as [h|]; [|now split].
        destruct (Headers.append h _ _); now split.
  - unfold stepBody. destruct (contentLength s) as [[n|]|] eqn:En.
    + specialize (Hc n eq_refl). cbn [toNumber].
      destruct (Z.ltb_spec (len (buf s)) (pos s + n)); [now split|].
      simpl. split; [lia|reflexivity].
    + cbn [toNumber]. simpl. now split.
    + cbn [toNumber].
      destruct (Z.ltb_spec (len (buf s)) (pos s + 0)); [now split|].
      simpl. split; [lia|reflexivity].
Qed.

(** C4, at a part that declares [Content-Length: -1000]: after the part is
    emitted the cursor is negative. *)
Theorem cursor_negative (fuel : nat) :
  let r := start (10 + fuel) Examples.ct [Examples.negative_far] in
  pos (final r) = -970 /\ pos (final r) < 0
  /\ outcome r = Errored MalformedBoundary.
Proof. vm_compute. repeat split. Qed.

(** A negative length that leads back to the boundary of the part: the
    passes of [processBuf] repeat, four for each part emitted, and the call
    does not return.  After [4 * k] passes, [k] parts have been enqueued and
    the parser is where it started. *)
Lemma negative_length_loops (k : nat) :
  forall (s : PState) (fuel : nat),
  pos s = 0 -> buf s = Examples.negative_back -> state s = STATE_BOUNDARY ->
  processBuf (midBoundaryOf (lit "X")) (endBoundaryOf (lit "X"))
             (4 * k + fuel) s
  = processBuf (midBoundaryOf (lit "X")) (endBoundaryOf (lit "X")) fuel
      {| pos := 0; buf := Examples.negative_back; state := STATE_BOUNDARY;
         headers := match k with O => headers s | S _ => None end;
         contentLength :=
           match k with O => contentLength s | S _ => None end;
         queue := queue s
                  ++ repeat {| part_headers :=
                                 Some [(lit "Content-Length", lit "-28")];
                               part_body := [] |} k |}.
Proof.
  induction k as [|k IH]; intros s fuel Hp Hb Hs.
  - simpl. rewrite app_nil_r. destruct s; simpl in *. now subst.
  - replace (4 * S k + fuel)%nat with (S (S (S (S (4 * k + fuel))))) by lia.
    destruct s as [p b st h c qu]. simpl in Hp, Hb, Hs. subst p b st.
    cbn [processBuf].
    match goal with
    | |- context [step ?m ?e ?x] =>
        let r := eval vm_compute in (step m e x) in
        change (step m e x) with r
    end. cbv iota.
    match goal with
    | |- context [step ?m ?e ?x] =>
        let r := eval vm_compute in (step m e x) in
        change (step m e x) with r
    end. cbv iota.
    match goal with
    | |- context [step ?m ?e ?x] =>
        let r := eval vm_compute in (step m e x) in
        change (step m e x) with r
    end. cbv iota.
    match goal with
    | |- context [step ?m ?e ?x] =>
        let r := eval vm_compute in (step m e x) in
        change (step m e x) with r
    end. cbv iota.
    rewrite IH by reflexivity. cbn [queue headers contentLength].
    apply f_equal.
    pose (P := {| part_headers := Some [(lit "Content-Length", lit "-28")];
                  part_body := [] |}).
    transitivity {| pos := 0; buf := Examples.negative_back;
                    state := STATE_BOUNDARY; headers := None;
                    contentLength := None;
                    queue := (qu ++ [P]) ++ repeat P k |}.
    + destruct k; reflexivity.
    + rewrite <- app_assoc. reflexivity.
Qed.

Lemma negative_length_never_returns (fuel : nat) :
  outcome (start fuel Examples.ct [Examples.negative_back]) = Hung.
Proof.
  unfold start.
  change (getBoundary Examples.ct) with (Some (lit "X")). cbv iota.
  cbn [mainLoop].
  change (addChunk initial Examples.negative_back)
    with (Some Examples.negative_back). cbv iota.
  replace fuel with (4 * (fuel / 4) + fuel mod 4)%nat at 1
    by (symmetry; apply Nat.div_mod_eq).
  rewrite negative_length_loops by reflexivity.
  pose proof (Nat.mod_upper_bound fuel 4 ltac:(lia)) as Hm.
  destruct (fuel mod 4)%nat as [|[|[|[|m]]]]; [| | | |lia];
    cbn [processBuf];
    repeat (match goal with
            | |- context [step ?m ?e ?x] =>
                let r := eval vm_compute in (step m e x) in
                change (step m e x) with r
            end; cbv iota);
    reflexivity.
Qed.

(** *** Header lines *)

Lemma at_Some_lt (a : list Z) (i x : Z) : at_ a i = Some x -> 0 <= i < len a.
Proof.
  unfold at_. destruct (Z.ltb_spec i 0) as [Hi|Hi]; [discriminate|].
  intros E. assert (Hn : nth_error a (Z.to_nat i) <> None) by congruence.
  apply nth_error_Some in Hn. unfold len. lia.
Qed.

(** X19: a non-empty header line in READING_HEADERS, with [colon] the
    index of its first colon, or -1 when it has none.  When the character at
    [colon + 1] is not a space, the pass throws 'bad part header line (no
    ": ")' and enqueues nothing; when the line has a colon followed by a
    space and [Headers.append] accepts the name before the colon and the
    value after the space, the pair, its value trimmed, is added after the
    entries already there, which stay as they were, and the parser stays in
    READING_HEADERS past the line. *)
Theorem header_line (midBoundary endBoundary : Uint8Array) (s : PState)
  (h : Headers.t) (l q : Uint8Array) :
  state s = STATE_HEADERS -> headers s = Some h ->
  0 <= pos s <= len (buf s) ->
  skipn (Z.to_nat (pos s)) (buf s) = l ++ CR :: LF :: q ->
  ~ In CR l -> decode l <> [] ->
  let line := decode l in
  let colon := strIndexOf line (lit ":") 0 in
  let name := substring line 0 colon in
  let value := substringFrom line (colon + 2) in
  (is_code (at_ line (colon + 1)) 32 = false ->
   exists s',
     step midBoundary endBoundary s = Throw MalformedHeaderLine_colon s'
     /\ queue s' = queue s)
  /\ (0 <= colon -> is_code (at_ line (colon + 1)) 32 = true ->
      forall h', Headers.append h name value = Some h' ->
      h' = h ++ [(name, Headers.normalize value)]
      /\ exists s',
           step midBoundary endBoundary s = Continue s'
           /\ state s' = STATE_HEADERS /\ headers s' = Some h'
           /\ pos s' = pos s + len l + 2 /\ queue s' = queue s).
Proof.
  intros Hs Hh Hp He Hl Hne line colon name value.
  assert (Hrep : Rep s (PHeaders h) (l ++ CR :: LF :: q))
    by (unfold Rep; now split_and).
  assert (E := stepHeaders_line s h l q Hrep Hl). cbv zeta in E.
  fold line in E. fold colon in E. fold name in E. fold value in E.
  apply eqb_list_false in Hne. fold line in Hne. rewrite Hne in E.
  unfold step. rewrite Hs. split.
  - intros Hc. rewrite Hc in E. simpl negb in E. rewrite orb_true_r in E.
    rewrite E. now eexists.
  - intros H0 Hc h' Ha. rewrite Hc, Ha in E. simpl negb in E.
    rewrite orb_false_r in E.
    assert (Hlt : (colon =? len line) = false).
    { apply Z.eqb_neq. intros Heq.
      destruct (at_ line (colon + 1)) as [x|] eqn:Ex; [|discriminate].
      apply at_Some_lt in Ex. lia. }
    rewrite Hlt in E. rewrite E. split.
    + now apply append_Some in Ha.
    + eexists. split; [reflexivity|]. simpl. now split_and.
Qed.

Lemma header_line_witness :
  exists s',
    step (midBoundaryOf (lit "X")) (endBoundaryOf (lit "X"))
         (Examples.in_headers (lit "B:  2 ")) = Continue s'
    /\ headers s' = Some [(lit "A", lit "1"); (lit "B", lit "2")].
Proof.
  destruct (header_line (midBoundaryOf (lit "X")) (endBoundaryOf (lit "X"))
              (Examples.in_headers (lit "B:  2 "))
              [(lit "A", lit "1")] (encode (lit "B:  2 ")) [])
    as [_ H].
  - reflexivity.
  - reflexivity.
  - vm_compute. split; discriminate.
  - reflexivity.
  - vm_compute. intros [H|[H|[H|[H|[H|[H|[]]]]]]]; discriminate.
  - vm_compute. discriminate.
  - destruct (H ltac:(vm_compute; discriminate) eq_refl
                [(lit "A", lit "1"); (lit "B", lit "2")] eq_refl)
      as [_ (s' & E & _ & Hh & _)].
    exists s'. now split.
Defined.

(** C5, at a header line without a colon that starts with a space, here
    the line " foo": the search for the colon gives -1, the guard compares
    it with the length of the line and then reads the first character,
    finds the space, and lets the line through; [Headers.append] is called
    with the empty name and throws, and the stream ends with a TypeError,
    not with MalformedHeaderLine.  The line "foo", without the space, does
    fail with MalformedHeaderLine. *)
Lemma header_line_without_colon :
  strIndexOf (lit " foo") (lit ":") 0 = -1
  /\ step (midBoundaryOf (lit "X")) (endBoundaryOf (lit "X"))
          (Examples.in_headers (lit " foo"))
     = Throw TypeError (set_pos (Examples.in_headers (lit " foo")) 11)
  /\ outcome (start 10 Examples.ct [Examples.no_colon]) = Errored TypeError
  /\ step (midBoundaryOf (lit "X")) (endBoundaryOf (lit "X"))
          (Examples.in_headers (lit "foo"))
     = Throw MalformedHeaderLine_colon
             (set_pos (Examples.in_headers (lit "foo")) 10).
Proof. vm_compute. repeat split. Qed.

(** *** Cancellation *)

(** C9, at a stream as [body]: [multipartStream] has taken its reader, so
    the [body.cancel(reason)] of the returned stream is rejected with a
    TypeError, and the cancel algorithm of the source is not run: the
    reasons it has seen are those it had seen before. *)
Theorem cancel_not_propagated (Reason : Type) (contentType : JSString)
  (body : Cancel.ReadableStream Reason) (reason : Reason)
  (m : Cancel.Multipart Reason) :
  Cancel.multipartStream contentType body = Some m ->
  Cancel.cancel m reason = (Cancel.mp_body m, Cancel.Rejected TypeError)
  /\ Cancel.cancels (fst (Cancel.cancel m reason)) = Cancel.cancels body.
Proof.
  unfold Cancel.multipartStream, Cancel.getReader, Cancel.cancel,
    Cancel.streamCancel.
  destruct (Cancel.locked body); [discriminate|].
  intros H. injection H as <-. simpl. now split.
Qed.

Lemma cancel_not_propagated_witness :
  let body := {| Cancel.locked := false;
                 Cancel.stream_state := Cancel.Readable;
                 Cancel.cancels := @nil nat |} in
  exists m,
    Cancel.multipartStream Examples.ct body = Some m
    /\ snd (Cancel.cancel m 7%nat) = Cancel.Rejected TypeError
    /\ Cancel.cancels (fst (Cancel.cancel m 7%nat)) = [].
Proof.
  intros body.
  exists {| Cancel.mp_contentType := Examples.ct;
            Cancel.mp_body :=
              {| Cancel.locked := true;
                 Cancel.stream_state := Cancel.Readable;
                 Cancel.cancels := @nil nat |} |}.
  split; [reflexivity|].
  destruct (cancel_not_propagated nat Examples.ct body 7%nat _ eq_refl)
    as [H1 H2].
  split; [exact (f_equal snd H1)|exact H2].
Defined.

(** *** Chunks *)

(** X17: chunks do not matter to the parts.  For a stream of the grammar
    [Valid], whose end boundary is followed only by CR and LF bytes, every
    two ways of splitting it into chunks give the same parts, those of the
    stream, and each closes the output stream or ends it with 'bad part
    boundary'; when the bytes after the end boundary are CR LF pairs
    ([strict]), both close it. *)
Theorem chunk_invariance (strict : bool) (ct b : JSString)
  (stream : Uint8Array) (parts : list Part)
  (chunks1 chunks2 : list Uint8Array) (fuel : nat) :
  getBoundary ct = Some b ->
  Valid strict b stream parts ->
  List.concat chunks1 = stream -> List.concat chunks2 = stream ->
  (List.length stream + 2 <= fuel)%nat ->
  let r1 := start fuel ct chunks1 in
  let r2 := start fuel ct chunks2 in
  emitted r1 = parts /\ emitted r2 = emitted r1
  /\ (outcome r1 = Closed \/ outcome r1 = Errored MalformedBoundary)
  /\ (outcome r2 = Closed \/ outcome r2 = Errored MalformedBoundary)
  /\ (strict = true -> outcome r1 = Closed /\ outcome r2 = Closed).
Proof.
  intros Hb Hv H1 H2 Hf r1 r2.
  destruct (start_valid strict ct b stream parts chunks1 fuel Hb Hv H1 Hf)
    as [E1 O1].
  destruct (start_valid strict ct b stream parts chunks2 fuel Hb Hv H2 Hf)
    as [E2 O2].
  fold r1 in E1, O1. fold r2 in E2, O2. split_and.
  - exact E1.
  - now rewrite E1, E2.
  - destruct O1 as [O1|[_ O1]]; [now left|now right].
  - destruct O2 as [O2|[_ O2]]; [now left|now right].
  - intros ->. split.
    + destruct O1 as [O1|[O1 _]]; [exact O1|discriminate].
    + destruct O2 as [O2|[O2 _]]; [exact O2|discriminate].
Qed.

Lemma examples_pairs_valid : Forall validPair Examples.pairs.
Proof. repeat constructor. Qed.

Lemma chunk_invariance_witness :
  let stream := encodeStream (lit "X") Examples.pairs in
  emitted (start 200 Examples.ct [stream]) = map partOf Examples.pairs
  /\ emitted (start 200 Examples.ct (map (fun c => [c]) stream))
     = emitted (start 200 Examples.ct [stream])
  /\ outcome (start 200 Examples.ct [stream]) = Closed
  /\ outcome (start 200 Examples.ct (map (fun c => [c]) stream)) = Closed.
Proof.
  intros stream.
  destruct (chunk_invariance true Examples.ct (lit "X") stream
              (map partOf Examples.pairs) [stream]
              (map (fun c => [c]) stream) 200)
    as (H1 & H2 & _ & _ & H3).
  - reflexivity.
  - apply encodeStream_valid, examples_pairs_valid.
  - apply app_nil_r.
  - vm_compute. reflexivity.
  - vm_compute. lia.
  - destruct (H3 eq_refl) as [H4 H5]. now split_and.
Defined.

(** C1, at the stream [--X--] followed by five LF bytes, which is an end
    boundary followed only by CR and LF bytes: delivered in one chunk it
    closes the output stream, and delivered as the end boundary and then
    the five bytes it ends with 'bad part boundary'.  The end of the source
    trims any CR and LF byte, [processBuf] skips them only in pairs, and
    nothing records that the end boundary has been read. *)
Lemma termination_depends_on_chunks :
  Valid false (lit "X") (Examples.end_only ++ Examples.newlines) []
  /\ outcome (start 10 Examples.ct [Examples.end_only ++ Examples.newlines])
     = Closed
  /\ outcome (start 10 Examples.ct [Examples.end_only; Examples.newlines])
     = Errored MalformedBoundary.
Proof.
  split; [|vm_compute; now split].
  assert (Hn : Forall isNewline Examples.newlines)
    by (repeat constructor).
  exact (T_end (midBoundaryOf (lit "X")) (endBoundaryOf (lit "X")) false
           Examples.newlines (T_done _ _ false Examples.newlines Hn)).
Qed.

(** *** The end of the source *)

(** What [start] does when the source reports that it is done: nothing more
    is enqueued, and the output stream is closed when the parser is in
    AWAITING_BOUNDARY and every unprocessed byte is a CR or an LF, and ends
    with TruncatedStream otherwise. *)
Lemma end_of_source (midBoundary endBoundary : Uint8Array) (fuel : nat)
  (s : PState) (nreads : nat) :
  0 <= pos s <= len (buf s) ->
  let r := mainLoop midBoundary endBoundary fuel [] s nreads in
  emitted r = queue s
  /\ (outcome r = Closed <->
      state s = STATE_BOUNDARY
      /\ Forall isNewline (skipn (Z.to_nat (pos s)) (buf s)))
  /\ (outcome r = Closed \/ outcome r = Errored TruncatedStream).
Proof.
  intros Hp r. subst r. cbn [mainLoop].
  pose proof (len_skipn (buf s) (pos s) Hp) as Hl.
  set (q := skipn (Z.to_nat (pos s)) (buf s)) in *.
  rewrite <- Hl.
  destruct (trimNewlines_spec (buf s) q (Z.to_nat (len q)) (pos s)
              ltac:(lia) eq_refl ltac:(unfold len; lia))
    as [[Hf E]|[Hf (p' & k & E & Hk)]]; rewrite E;
    cbn [emitted outcome set_pos queue state].
  - change (0 >? 0) with false. rewrite orb_false_r.
    split; [reflexivity|]. destruct (state s).
    + split; [|now left]. split; [now split|reflexivity].
    + split; [|now right]. split; [discriminate|intros [? _]; discriminate].
    + split; [|now right]. split; [discriminate|intros [? _]; discriminate].
  - destruct (Z.gtb_spec k 0); [|lia]. rewrite orb_true_r.
    split; [reflexivity|]. split; [|now right].
    split; [discriminate|intros [_ ?]; contradiction].
Qed.

(** X18: the end of a stream.  A stream of the grammar [Valid] whose end
    boundary is followed only by CR LF pairs closes the output stream after
    all its parts, however it is split into chunks.  And when the source
    reports its end, with the cursor within the buffer, no part is added,
    and the output stream is closed if the parser is in AWAITING_BOUNDARY
    and every unprocessed byte is a CR or an LF, and ends with 'multipart
    stream ended mid-part' if not. *)
Theorem clean_termination :
  (forall (ct b : JSString) (stream : Uint8Array) (parts : list Part)
          (chunks : list Uint8Array) (fuel : nat),
      getBoundary ct = Some b ->
      Valid true b stream parts ->
      List.concat chunks = stream ->
      (List.length stream + 2 <= fuel)%nat ->
      emitted (start fuel ct chunks) = parts
      /\ outcome (start fuel ct chunks) = Closed)
  /\ (forall (midBoundary endBoundary : Uint8Array) (fuel : nat)
             (s : PState) (nreads : nat),
        0 <= pos s <= len (buf s) ->
        let r := mainLoop midBoundary endBoundary fuel [] s nreads in
        emitted r = queue s
        /\ (outcome r = Closed <->
            state s = STATE_BOUNDARY
            /\ Forall isNewline (skipn (Z.to_nat (pos s)) (buf s)))
        /\ (outcome r = Closed \/ outcome r = Errored TruncatedStream)).
Proof.
  split.
  - intros ct b stream parts chunks fuel Hb Hv Hc Hf.
    destruct (start_valid true ct b stream parts chunks fuel Hb Hv Hc Hf)
      as [E [O|[O _]]]; [now split|discriminate].
  - apply end_of_source.
Qed.

Lemma clean_termination_witness :
  let stream := encodeStream (lit "X") Examples.pairs ++ [CR; LF; CR; LF] in
  (emitted (start 200 Examples.ct [stream]) = map partOf Examples.pairs
   /\ outcome (start 200 Examples.ct [stream]) = Closed)
  /\ outcome (mainLoop (midBoundaryOf (lit "X")) (endBoundaryOf (lit "X"))
                200 [] (Examples.in_headers (lit "B: 2")) 1)
     = Errored TruncatedStream.
Proof.
  intros stream. destruct clean_termination as [H1 H2]. split.
  - apply (H1 Examples.ct (lit "X") stream (map partOf Examples.pairs)
             [stream] 200%nat).
    + reflexivity.
    + apply encodeStream_padded_valid; [apply examples_pairs_valid|].
      repeat constructor.
    + apply app_nil_r.
    + vm_compute. lia.
  - destruct (H2 (midBoundaryOf (lit "X")) (endBoundaryOf (lit "X")) 200%nat
                (Examples.in_headers (lit "B: 2")) 1%nat)
      as (_ & Hc & [Ho|Ho]).
    + vm_compute. split; discriminate.
    + apply Hc in Ho as [Ho _]. discriminate.
    + exact Ho.
Defined.

(** C2, at bytes that follow the end boundary.  In the chunk of the end
    boundary, the five bytes [abcde] end the stream with 'multipart stream
    ended mid-part', as the claim says; in a later chunk they end it with
    'bad part boundary', and a later chunk that holds a whole stream of one
    part is parsed: its part is emitted and the output stream is closed.
    The end-boundary branch returns in AWAITING_BOUNDARY and nothing
    records that the stream is finished. *)
Lemma bytes_after_end_boundary :
  outcome (start 10 Examples.ct [Examples.end_only ++ Examples.garbage])
  = Errored TruncatedStream
  /\ outcome (start 10 Examples.ct [Examples.end_only; Examples.garbage])
     = Errored MalformedBoundary
  /\ emitted (start 10 Examples.ct
                [Examples.end_only; Examples.empty_part_stream])
     = [Examples.empty_part]
  /\ outcome (start 10 Examples.ct
                [Examples.end_only; Examples.empty_part_stream])
     = Closed.
Proof. vm_compute. repeat split. Qed.

(** *** Encoding and parsing *)




End Spec.

(** ** Further properties of the code *)

Module Extra.
Import JS Parser Wire Derived Facts StringFacts Boundary BoundaryLines Steps
       HeaderLine DrainValid Utf8 ValidStreams.

Lemma pending_len (s : PState) :
  0 <= pos s <= len (buf s) -> len (buf s) = pos s + len (pending s).
Proof. intros Hp. unfold pending. rewrite len_skipn by trivial. lia. Qed.

(** *** Comparing arrays *)

(** X1: [compareArrays] is equality of arrays: it answers true exactly when
    the two have the same length and the same elements. *)
Theorem compareArrays_correct (a b : Uint8Array) :
  (compareArrays a b = true <-> a = b)
  /\ (len a <> len b -> compareArrays a b = false)
  /\ (compareArrays a b = false <-> a <> b).
Proof.
  split; [apply compareArrays_eq|]. split.
  - intros H. apply compareArrays_neq. intros ->. contradiction.
  - split.
    + intros H E. apply compareArrays_eq in E. congruence.
    + apply compareArrays_neq.
Qed.

(** *** The boundary pass, for any two boundary lines *)

Section AnyBoundary.

Variables midBoundary endBoundary : Uint8Array.

Lemma prefixb_firstn (m q : Uint8Array) :
  compareArrays (firstn (Z.to_nat (len m)) q) m = prefixb m q.
Proof.
  destruct (prefixb m q) eqn:E.
  - apply prefixb_true in E as [r ->]. rewrite firstn_len_app.
    apply compareArrays_refl.
  - apply compareArrays_neq. intros F.
    assert (prefixb m q = true); [|congruence].
    apply prefixb_true. exists (skipn (Z.to_nat (len m)) q).
    rewrite <- F at 1. symmetry. apply firstn_skipn.
Qed.

Lemma stepBoundary_skip_any (s : PState) (q : Uint8Array) :
  0 <= pos s <= len (buf s) -> pending s = CR :: LF :: q ->
  stepBoundary midBoundary endBoundary s
  = stepBoundary midBoundary endBoundary (set_pos s (pos s + 2)).
Proof.
  intros Hp He.
  assert (Hl : len (buf s) = pos s + (2 + len q)).
  { rewrite (pending_len s Hp), He, !len_cons. lia. }
  unfold pending in He.
  pose proof (len_nonneg q). unfold stepBoundary.
  destruct (Z.to_nat (len (buf s) - pos s)) as [|n] eqn:En; [lia|].
  cbn [skipBlank].
  rewrite (slice_blank _ _ (CR :: LF :: q)) by trivial.
  destruct (Z.geb_spec (len (buf s)) (pos s + len blankLine));
    [|rewrite len_blankLine in *; lia].
  change (prefixb [CR; LF] (CR :: LF :: q)) with true. cbn [andb].
  rewrite len_blankLine.
  rewrite (skipBlank_fuel n (Z.to_nat (len (buf s) - (pos s + 2))))
    by lia.
  reflexivity.
Qed.

Lemma blankLines_S (k : nat) (q : Uint8Array) :
  blankLines (S k) ++ q = CR :: LF :: blankLines k ++ q.
Proof. reflexivity. Qed.

(** Blank lines at the cursor are skipped, whatever follows them. *)
Lemma stepBoundary_blankLines (k : nat) :
  forall (s : PState) (q : Uint8Array),
  0 <= pos s <= len (buf s) -> pending s = blankLines k ++ q ->
  stepBoundary midBoundary endBoundary s
  = stepBoundary midBoundary endBoundary
      (set_pos s (pos s + 2 * Z.of_nat k))
  /\ 0 <= pos s + 2 * Z.of_nat k <= len (buf s)
  /\ skipn (Z.to_nat (pos s + 2 * Z.of_nat k)) (buf s) = q.
Proof.
  induction k as [|k IH]; intros s q Hp He.
  - simpl Z.of_nat. rewrite Z.mul_0_r, Z.add_0_r, set_pos_same.
    split_and; trivial; lia.
  - rewrite blankLines_S in He.
    rewrite (stepBoundary_skip_any s _ Hp He).
    assert (Hl : len (buf s) = pos s + (2 + len (blankLines k ++ q))).
    { rewrite (pending_len s Hp), He, !len_cons. lia. }
    pose proof (len_nonneg (blankLines k ++ q)).
    destruct (IH (set_pos s (pos s + 2)) q) as (E & Hr & Hq).
    + cbn [pos buf set_pos]. lia.
    + unfold pending in *. cbn [pos buf set_pos].
      rewrite skipn_skipn_Z, He by lia. reflexivity.
    + cbn [pos buf set_pos] in E, Hr, Hq.
      replace (pos s + 2 * Z.of_nat (S k))
        with (pos s + 2 + 2 * Z.of_nat k) by lia.
      split_and; trivial; lia.
Qed.

(** X2: the boundary pass.  With [k] blank lines at the cursor, followed by
    bytes [q] that do not begin with another blank line, the pass skips the
    blank lines and then: returns, to wait, when [q] is shorter than the
    boundary line of a part; goes on to READING_HEADERS past that line, with
    a fresh header set, when [q] begins with it; returns past the end
    boundary, in AWAITING_BOUNDARY, when [q] begins with the end boundary
    instead; and throws 'bad part boundary' in every other case. *)
Theorem boundary_pass_decides (s : PState) (k : nat) (q : Uint8Array) :
  state s = STATE_BOUNDARY -> 0 <= pos s <= len (buf s) ->
  pending s = blankLines k ++ q -> prefixb [CR; LF] q = false ->
  let p := pos s + 2 * Z.of_nat k in
  step midBoundary endBoundary s
  = if len q <? len midBoundary then Return (set_pos s p)
    else if prefixb midBoundary q then
      Continue {| pos := p + len midBoundary; buf := buf s;
                  state := STATE_HEADERS; headers := Some Headers.new;
                  contentLength := contentLength s; queue := queue s |}
    else if prefixb endBoundary q then
      Return {| pos := p + len endBoundary; buf := buf s;
                state := STATE_BOUNDARY; headers := headers s;
                contentLength := contentLength s; queue := queue s |}
    else Throw MalformedBoundary (set_pos s p).
Proof.
  intros Hs Hp He Hq p. unfold step. rewrite Hs.
  destruct (stepBoundary_blankLines k s q Hp He) as (E & Hr & Hk).
  fold p in E, Hr, Hk. rewrite E.
  unfold stepBoundary. cbn [buf pos set_pos].
  rewrite skipBlank_stop by (trivial; now rewrite Hk).
  assert (Hl : len (buf s) = p + len q)
    by (rewrite <- Hk, len_skipn by lia; lia).
  pose proof (len_nonneg midBoundary). pose proof (len_nonneg endBoundary).
  rewrite !slice_pending, Hk, !prefixb_firstn by lia.
  destruct (Z.ltb_spec (len (buf s)) (p + len midBoundary)),
           (Z.ltb_spec (len q) (len midBoundary)); try lia; trivial.
  destruct (prefixb midBoundary q); simpl negb; cbv iota; trivial.
Qed.

(** *** The header pass: where a line ends *)

(** X3: the header pass looks for the first CR at or after the cursor.  It
    returns without consuming anything when there is none, or when the CR is
    the last byte of the buffer; and it throws 'bad part header line (CR
    without NL)' when the byte after the CR is not an LF. *)
Theorem header_pass_line_end (s : PState) (l : Uint8Array) :
  state s = STATE_HEADERS -> 0 <= pos s <= len (buf s) -> ~ In CR l ->
  (pending s = l -> step midBoundary endBoundary s = Return s)
  /\ (pending s = l ++ [CR] -> step midBoundary endBoundary s = Return s)
  /\ (forall c r, pending s = l ++ CR :: c :: r -> c <> LF ->
      step midBoundary endBoundary s = Throw MalformedHeaderLine_CR s).
Proof.
  intros Hs Hp Hl. pose proof (pending_len s Hp) as Hlen.
  unfold step, pending in *. rewrite Hs. unfold stepHeaders.
  pose proof (len_nonneg l).
  split_and.
  - intros He. rewrite indexOf_none by (try lia; now rewrite He).
    reflexivity.
  - intros He.
    rewrite (indexOf_found _ _ _ l []) by (trivial; lia).
    rewrite He, len_app, len_cons, len_nil in Hlen.
    destruct (Z.eqb_spec (pos s + len l) (-1)); [lia|].
    destruct (Z.eqb_spec (len (buf s)) (pos s + len l + 1)); [|lia].
    reflexivity.
  - intros c r He Hc.
    rewrite (indexOf_found _ _ _ l (c :: r)) by (trivial; lia).
    rewrite He, len_app, !len_cons in Hlen.
    pose proof (len_nonneg r).
    destruct (Z.eqb_spec (pos s + len l) (-1)); [lia|].
    destruct (Z.eqb_spec (len (buf s)) (pos s + len l + 1)); [lia|].
    simpl orb. cbv iota.
    replace (pos s + len l + 1) with (pos s + (len l + 1)) by lia.
    rewrite at_pending, He by lia.
    replace (Z.to_nat (len l + 1)) with (List.length l + 1)%nat
      by (unfold len; lia).
    rewrite nth_error_app2, Nat.add_comm, Nat.add_sub by lia.
    simpl nth_error. simpl is_code.
    destruct (Z.eqb_spec c LF); [contradiction|]. reflexivity.
Qed.

(** *** The body pass *)

(** X4: in READING_BODY with a content length [n] that is not negative, the
    pass returns without consuming anything while fewer than [n] bytes are
    unprocessed; otherwise it enqueues one part, with the current headers
    and exactly the first [n] unprocessed bytes as body, moves the cursor
    past them, clears the headers and the length, and goes on in
    AWAITING_BOUNDARY. *)
Theorem body_pass_exact (s : PState) (n : Z) :
  state s = STATE_BODY -> contentLength s = Some (Some n) -> 0 <= n ->
  0 <= pos s <= len (buf s) ->
  step midBoundary endBoundary s
  = if len (pending s) <? n then Return s
    else Continue
           {| pos := pos s + n; buf := buf s; state := STATE_BOUNDARY;
              headers := None; contentLength := None;
              queue := queue s
                       ++ [{| part_headers := headers s;
                              part_body := firstn (Z.to_nat n)
                                                  (pending s) |}] |}.
Proof.
  intros Hs Hc Hn Hp. unfold step, pending. rewrite Hs. unfold stepBody.
  rewrite Hc. cbn [toNumber]. rewrite len_skipn by trivial.
  destruct (Z.ltb_spec (len (buf s)) (pos s + n)),
           (Z.ltb_spec (len (buf s) - pos s) n); try lia; trivial.
  now rewrite slice_pending by lia.
Qed.

End AnyBoundary.

Lemma boundary_pass_decides_witness :
  step [45; 45; 88; 13; 10] [45; 45; 88; 45; 45]
       (before_boundary (blankLines 2 ++ [45; 45; 88; 13; 10; 65]))
  = Continue {| pos := 11;
                buf := [0; 0] ++ blankLines 2 ++ [45; 45; 88; 13; 10; 65];
                state := STATE_HEADERS; headers := Some Headers.new;
                contentLength := None; queue := [] |}.
Proof.
  apply (boundary_pass_decides [45; 45; 88; 13; 10] [45; 45; 88; 45; 45]
           (before_boundary (blankLines 2 ++ [45; 45; 88; 13; 10; 65]))
           2 [45; 45; 88; 13; 10; 65]);
    [reflexivity|vm_compute; split; discriminate|reflexivity|reflexivity].
Defined.

Lemma header_pass_line_end_witness :
  step [45; 45; 88; 13; 10] [45; 45; 88; 45; 45]
       (Examples.in_headers [66; 13; 67])
  = Throw MalformedHeaderLine_CR (Examples.in_headers [66; 13; 67]).
Proof.
  destruct (header_pass_line_end [45; 45; 88; 13; 10] [45; 45; 88; 45; 45]
              (Examples.in_headers [66; 13; 67]) [66])
    as (_ & _ & H).
  - reflexivity.
  - vm_compute. split; discriminate.
  - intros [E|[]]. discriminate.
  - apply (H 67 [13; 10]); [reflexivity|discriminate].
Defined.

Lemma body_pass_exact_witness :
  step [45; 45; 88; 13; 10] [45; 45; 88; 45; 45]
       (before_body 3 [97; 98; 99; 100])
  = Continue {| pos := 4; buf := [0; 97; 98; 99; 100];
                state := STATE_BOUNDARY; headers := None;
                contentLength := None;
                queue := [{| part_headers :=
                               Some [(lit "Content-Length", lit "3")];
                             part_body := [97; 98; 99] |}] |}.
Proof.
  apply (body_pass_exact [45; 45; 88; 13; 10] [45; 45; 88; 45; 45]
           (before_body 3 [97; 98; 99; 100]) 3);
    [reflexivity|reflexivity|lia|vm_compute; split; discriminate].
Defined.

(** *** The length that a header block declares *)

Lemma digits_Some (s : JSString) (a : Z) : digits s (Some a) <> None.
Proof.
  revert a. induction s as [|c s IH]; intros a; simpl; [discriminate|].
  destruct (isDigit c); [apply IH|discriminate].
Qed.

Lemma digits_comma (s r : JSString) (acc : option Z) :
  digits (s ++ 44 :: r) acc = digits s acc.
Proof.
  revert acc. induction s as [|c s IH]; intros acc; [reflexivity|].
  simpl. destruct (isDigit c); [apply IH|reflexivity].
Qed.

Lemma parseInt10_comma (v r : JSString) :
  parseInt10 (v ++ 44 :: r) = parseInt10 v.
Proof.
  unfold parseInt10.
  induction v as [|c v IH]; [reflexivity|].
  simpl app. cbn [trimStart].
  destruct (isStrWhiteSpace c); [exact IH|].
  destruct (c =? 45); [now rewrite digits_comma|].
  destruct (c =? 43); [now rewrite digits_comma|].
  exact (digits_comma (c :: v) r None).
Qed.

Lemma join_cons (v : JSString) (vs : list JSString) :
  exists r, Headers.join (v :: vs) = v \/ Headers.join (v :: vs) = v ++ 44 :: r.
Proof.
  destruct vs as [|w vs]; [exists []; now left|].
  exists (32 :: Headers.join (w :: vs)). right. reflexivity.
Qed.

(** X5: the length of a part is read from the first Content-Length header of
    its block, whatever the letter case of the name: when the name is
    repeated, the values that follow the first do not count; and without
    such a header there is no length. *)
Theorem content_length_first_value (h : Headers.t) :
  parseContentLength h
  = match Headers.getAll h (lit "Content-Length") with
    | [] => None
    | v :: _ => parseInt10 v
    end.
Proof.
  unfold parseContentLength, Headers.get.
  destruct (Headers.getAll h (lit "Content-Length")) as [|v vs];
    [reflexivity|].
  destruct (join_cons v vs) as [r [E|E]]; rewrite E; [reflexivity|].
  apply parseInt10_comma.
Qed.

(** X6: [parseInt(s, 10)] is NaN exactly when, after the leading white
    space and one optional sign, [s] does not go on with a decimal digit;
    what follows the digits does not matter. *)
Theorem parseInt10_NaN (s : JSString) :
  parseInt10 s = None <->
  match trimStart s with
  | [] => True
  | c :: r =>
      match (if (c =? 45) || (c =? 43) then r else c :: r) with
      | [] => True
      | d :: _ => isDigit d = false
      end
  end.
Proof.
  unfold parseInt10. destruct (trimStart s) as [|c r]; [tauto|].
  assert (D : forall t, digits t None = None <->
                        match t with [] => True | d :: _ => isDigit d = false
                        end).
  { intros [|d t]; simpl; [tauto|].
    destruct (isDigit d); [|tauto].
    split; [|discriminate]. intros H. now apply digits_Some in H. }
  destruct (c =? 45) eqn:E1; simpl orb; cbv iota.
  - rewrite <- D. destruct (digits r None); simpl; split; congruence.
  - destruct (c =? 43); [apply D|apply (D (c :: r))].
Qed.

Lemma content_length_examples :
  parseContentLength two_lengths = Some 7
  /\ parseInt10 (lit " -x") = None /\ parseInt10 (lit "12px") = Some 12.
Proof. vm_compute. repeat split. Qed.

(** *** The boundary of a content type of the usual form *)

(** X7: for a content type "multipart/" subtype "; boundary=" token, with a
    subtype that has no semicolon, [getBoundary] gives the token, whatever
    the token holds: further parameters, quotes, or another "; boundary=". *)
Theorem getBoundary_usual_form (subtype tok : JSString) :
  ~ In 59 subtype ->
  getBoundary (MULTIPART_TYPE ++ subtype ++ BOUNDARY_PARAM ++ tok)
  = Some tok.
Proof.
  intros Hn. apply getBoundary_Some. exists subtype. split; [reflexivity|].
  intros sub' tok' H. apply app_inv_head in H.
  destruct (Z.le_gt_cases (len subtype) (len sub')) as [Hle|Hgt]; trivial.
  exfalso. apply Hn.
  assert (E : nth_error (subtype ++ BOUNDARY_PARAM ++ tok)
                        (List.length sub') = Some 59).
  { rewrite H, nth_error_app2, Nat.sub_diag by lia. reflexivity. }
  rewrite nth_error_app1 in E by (unfold len in Hgt; lia).
  now apply nth_error_In in E.
Qed.

Lemma getBoundary_usual_form_witness :
  getBoundary (lit "multipart/mixed; boundary=X; boundary=Y") 
  = Some (lit "X; boundary=Y").
Proof.
  apply (getBoundary_usual_form (lit "mixed") (lit "X; boundary=Y")).
  vm_compute. intros [H|[H|[H|[H|[H|[]]]]]]; discriminate.
Defined.

(** *** Adding a chunk to the buffer *)

(** X8: with the cursor within the buffer, a new chunk makes the buffer the
    unprocessed bytes followed by the chunk, and the chunk itself when no
    byte is unprocessed; the bytes already processed are dropped. *)
Theorem addChunk_appends (s : PState) (value : Uint8Array) :
  0 <= pos s <= len (buf s) ->
  addChunk s value = Some (pending s ++ value)
  /\ (pos s = len (buf s) -> addChunk s value = Some value).
Proof.
  intros Hp. pose proof (addChunk_pending s value Hp) as E.
  split; [exact E|]. intros He. rewrite E.
  pose proof (pending_len s Hp) as Hl. unfold pending in Hl.
  destruct (skipn (Z.to_nat (pos s)) (buf s)) as [|x q]; [reflexivity|].
  rewrite len_cons in Hl. pose proof (len_nonneg q). lia.
Qed.

Lemma addChunk_appends_witness :
  addChunk (before_body 3 [97; 98]) [99; 100] = Some [97; 98; 99; 100].
Proof.
  apply (addChunk_appends (before_body 3 [97; 98]) [99; 100]).
  vm_compute. split; discriminate.
Defined.

(** *** What every pass keeps *)

Lemma consistent_same (s s' : PState) :
  state s' = state s -> headers s' = headers s ->
  contentLength s' = contentLength s -> queue s' = queue s ->
  (Consistent s -> Consistent s')
  /\ (NoNegativeLength s' -> NoNegativeLength s).
Proof.
  intros E1 E2 E3 E4. unfold Consistent, NoNegativeLength.
  rewrite E1, E2, E3, E4. tauto.
Qed.

Section Invariants.

Variables midBoundary endBoundary : Uint8Array.

Local Abbreviation stepOf := (step midBoundary endBoundary).

(** A pass leaves the buffer as it is and enqueues at most one part, in
    READING_BODY. *)
Lemma step_appends (s : PState) :
  buf (stepState (stepOf s)) = buf s
  /\ (queue (stepState (stepOf s)) = queue s
      \/ (state s = STATE_BODY
          /\ exists p body,
               stepOf s
               = Continue
                   {| pos := p; buf := buf s; state := STATE_BOUNDARY;
                      headers := None; contentLength := None;
                      queue := queue s
                               ++ [{| part_headers := headers s;
                                      part_body := body |}] |}
               /\ forall n, contentLength s = Some (Some n) ->
                    p = pos s + n
                    /\ body = slice (buf s) (pos s) (pos s + n))).
Proof.
  unfold step. destruct (state s) eqn:Es.
  - unfold stepBoundary. set (p := skipBlank _ _ _). cbn [buf set_pos].
    destruct (_ <? _); [now split; [|left]|].
    destruct (negb _); [|now split; [|left]].
    destruct (compareArrays _ endBoundary); now split; [|left].
  - unfold stepHeaders.
    destruct (_ || _); [now split; [|left]|].
    destruct (negb _); [now split; [|left]|].
    cbv zeta. cbn [headers set_pos pos buf queue state contentLength].
    destruct (eqb_list _ []).
    + destruct (option_map parseContentLength (headers s)) as [[n|]|];
        now split; [|left].
    + destruct (_ || _); [now split; [|left]|].
      destruct (headers s) as [h|]; [|now split; [|left]].
      destruct (Headers.append h _ _); now split; [|left].
  - unfold stepBody. destruct (contentLength s) as [[n|]|]; cbn [toNumber].
    + destruct (_ <? _); [now split; [|left]|].
      split; [reflexivity|right]. split; [reflexivity|].
      eexists _, _. split; [reflexivity|].
      intros n' E. injection E as <-. now split.
    + split; [reflexivity|right]. split; [reflexivity|].
      eexists _, _. split; [reflexivity|discriminate].
    + destruct (_ <? _); [now split; [|left]|].
      split; [reflexivity|right]. split; [reflexivity|].
      eexists _, _. split; [reflexivity|discriminate].
Qed.

(** A pass keeps the variables consistent; when it throws 'missing/invalid
    part Content-Length', it leaves the NaN in [contentLength]. *)
Lemma step_consistent (s : PState) :
  Consistent s ->
  match stepOf s with
  | Continue s1 | Return s1 => Consistent s1
  | Throw e s1 => ConsistentAfter e s1
  end.
Proof.
  unfold step. intros HC. pose proof HC as [Hs Hq].
  destruct (state s) eqn:Es.
  - destruct Hs as [Hh Hc]. unfold stepBoundary.
    set (p := skipBlank _ _ _). cbn [buf set_pos].
    assert (HCp : Consistent (set_pos s p))
      by (apply (consistent_same s); trivial).
    destruct (_ <? _); [exact HCp|].
    destruct (negb _).
    + destruct (compareArrays _ endBoundary); [|exact HCp].
      apply (consistent_same s); cbn; congruence.
    + unfold Consistent. cbn. split; [|exact Hq].
      split; [discriminate|exact Hc].
  - destruct Hs as [Hh Hc]. unfold stepHeaders.
    destruct (_ || _); [exact HC|].
    destruct (negb _); [exact HC|].
    cbv zeta. set (s0 := set_pos s _).
    assert (HC0 : Consistent s0) by (apply (consistent_same s); trivial).
    cbn [headers set_pos pos buf queue state contentLength s0].
    destruct (eqb_list _ []).
    + destruct (headers s) as [h|] eqn:Eh; [|contradiction].
      cbn [option_map].
      destruct (parseContentLength h) as [n|] eqn:En.
      * unfold Consistent. cbn. split; [|exact Hq]. now exists h, n.
      * cbn. split_and; trivial. now exists h.
    + destruct (_ || _); [exact HC0|].
      destruct (headers s) as [h|] eqn:Eh; [|contradiction].
      destruct (Headers.append h _ _); [|exact HC0].
      unfold Consistent. cbn. rewrite Es. split; [|exact Hq].
      split; [discriminate|exact Hc].
  - destruct Hs as (h & n & Hh & Hc & Hn). unfold stepBody.
    rewrite Hc. cbn [toNumber].
    destruct (_ <? _); [exact HC|].
    unfold Consistent. cbn. split; [now split|]. intros p Hin.
    apply in_app_or in Hin as [Hin|[<-|[]]]; [now apply Hq|].
    unfold declared. cbn. rewrite Hh, Hn. discriminate.
Qed.

(** When no length is negative after a pass, none was before it. *)
Lemma step_back (s : PState) :
  Consistent s ->
  NoNegativeLength (stepState (stepOf s)) -> NoNegativeLength s.
Proof.
  intros [Hs Hq] [N1 N2].
  destruct (step_appends s) as [_ [E|[Es (p0 & body & E & _)]]].
  - split.
    + intros p n Hin. apply N1. now rewrite E.
    + intros n Es Hc.
      assert (Hst : stepOf s = Return s).
      { unfold step. rewrite Es. unfold stepBody. rewrite Hc.
        cbn [toNumber].
        destruct (_ <? _) eqn:El; [reflexivity|].
        exfalso. revert E. unfold step. rewrite Es. unfold stepBody.
        rewrite Hc. cbn [toNumber]. rewrite El. cbn. intros E.
        apply (f_equal (@List.length Part)) in E.
        rewrite length_app in E. simpl in E. lia. }
      rewrite Hst in N2. now apply N2.
  - rewrite E in N1, N2. cbn in N1, N2. split.
    + intros p n Hin. apply N1. apply in_or_app. now left.
    + intros n _ Hc. rewrite Es in Hs.
      destruct Hs as (h & n' & Hh & Hc' & Hn).
      apply (N1 {| part_headers := headers s; part_body := body |}).
      * apply in_or_app. right. now left.
      * unfold declared. cbn. rewrite Hh, Hn. congruence.
Qed.

Lemma skipBlank_ge (n : nat) (b : Uint8Array) (p : Z) :
  p <= skipBlank n b p.
Proof.
  revert p. induction n as [|n IH]; intros p; simpl; [lia|].
  destruct (_ && _); [|lia]. rewrite len_blankLine.
  specialize (IH (p + 2)). lia.
Qed.

(** Without a negative length: a pass keeps the cursor within the buffer,
    never moves it back, gives the part it enqueues a body of the length
    declared, and, when the loop goes on, leaves fewer passes to make. *)
Lemma step_exact (s : PState) :
  0 < len midBoundary ->
  Consistent s -> NoNegativeLength s -> BodiesExact s ->
  BodiesExact (stepState (stepOf s))
  /\ pos s <= pos (stepState (stepOf s))
  /\ match stepOf s with
     | Continue s1 => (passes s1 < passes s)%nat
     | Return s1 | Throw _ s1 => (passes s1 <= passes s)%nat
     end.
Proof.
  intros Hm [Hs Hq] [N1 N2] [Hp Hb].
  assert (Hc : forall n, contentLength s = Some (Some n) -> 0 <= n).
  { intros n Hn. destruct (state s) eqn:Es.
    - destruct Hs as [_ Hs]. congruence.
    - destruct Hs as [_ Hs]. congruence.
    - now apply N2. }
  pose proof (Spec.step_cursor midBoundary endBoundary s Hp Hc) as Hr.
  assert (Hr' : 0 <= pos (stepState (stepOf s))
                <= len (buf (stepState (stepOf s))))
    by (destruct (stepOf s); apply Hr).
  clear Hr. unfold BodiesExact. split; [split; [exact Hr'|]|split].
  - (* the parts enqueued *)
    destruct (step_appends s) as [_ [E|[Es (p0 & body & E & Hpb)]]].
    + rewrite E. exact Hb.
    + rewrite E. cbn. intros p Hin.
      apply in_app_or in Hin as [Hin|[<-|[]]]; [now apply Hb|].
      rewrite Es in Hs. destruct Hs as (h & n & Hh & Hcl & Hn).
      destruct (Hpb n Hcl) as [-> ->].
      unfold declared. cbn. rewrite Hh, Hn.
      specialize (Hc n Hcl).
      assert (Hfit : pos s + n <= len (buf s)).
      { rewrite E in Hr'. cbn in Hr'. lia. }
      rewrite slice_pending by lia. f_equal. symmetry.
      apply len_firstn. rewrite len_skipn by lia. lia.
  - (* the cursor does not move back *)
    unfold step. destruct (state s) eqn:Es.
    + unfold stepBoundary.
      pose proof (skipBlank_ge (Z.to_nat (len (buf s) - pos s)) (buf s)
                    (pos s)) as Hk.
      set (p := skipBlank _ _ _) in *. cbn [buf set_pos].
      pose proof (len_nonneg endBoundary).
      destruct (_ <? _); [cbn; lia|].
      destruct (negb _); [|cbn; lia].
      destruct (compareArrays _ endBoundary); cbn; lia.
    + unfold stepHeaders.
      destruct (Spec.indexOf_range (buf s) CR (pos s) Hp) as [E|E];
        [rewrite E; cbn; lia|].
      destruct (_ || _); [cbn; lia|].
      destruct (negb _); [cbn; lia|].
      cbv zeta. cbn [headers set_pos pos buf queue state contentLength].
      destruct (eqb_list _ []).
      * destruct (option_map parseContentLength (headers s)) as [[n|]|];
          cbn; lia.
      * destruct (_ || _); [cbn; lia|].
        destruct (headers s) as [h|]; [|cbn; lia].
        destruct (Headers.append h _ _); cbn; lia.
    + unfold stepBody. destruct (contentLength s) as [[n|]|] eqn:En.
      * specialize (Hc n eq_refl). cbn [toNumber].
        destruct (_ <? _); cbn; lia.
      * cbn. lia.
      * cbn [toNumber]. destruct (_ <? _); cbn; lia.
  - (* fewer passes are left *)
    unfold passes, step. destruct (state s) eqn:Es.
    + unfold stepBoundary.
      pose proof (skipBlank_ge (Z.to_nat (len (buf s) - pos s)) (buf s)
                    (pos s)) as Hk.
      set (p := skipBlank _ _ _) in *. cbn [buf set_pos].
      pose proof (len_nonneg endBoundary).
      destruct (Z.ltb_spec (len (buf s)) (p + len midBoundary));
        [cbn; rewrite Es; lia|].
      destruct (negb _); [|cbn; lia].
      destruct (compareArrays _ endBoundary); cbn; rewrite ?Es; lia.
    + unfold stepHeaders.
      destruct (Spec.indexOf_range (buf s) CR (pos s) Hp) as [Ei|Ei];
        [rewrite Ei; cbn; rewrite Es; lia|].
      set (cr := indexOf (buf s) CR (pos s)) in *.
      destruct (Z.eqb_spec cr (-1)) as [E1|E1]; [lia|].
      destruct (Z.eqb_spec (len (buf s)) (cr + 1)) as [E2|E2];
        [cbn; rewrite Es; lia|].
      simpl orb. cbv iota.
      destruct (negb _); [cbn; rewrite Es; lia|].
      cbv zeta. cbn [headers set_pos pos buf queue state contentLength].
      destruct (eqb_list _ []).
      * destruct (option_map parseContentLength (headers s)) as [[n|]|];
          cbn; rewrite ?Es; lia.
      * destruct (_ || _); [cbn; rewrite Es; lia|].
        destruct (headers s) as [h|]; [|cbn; rewrite Es; lia].
        destruct (Headers.append h _ _); cbn; rewrite Es; lia.
    + destruct Hs as (h & n & _ & En & _).
      unfold stepBody. rewrite En. specialize (Hc n En). cbn [toNumber].
      destruct (Z.ltb_spec (len (buf s)) (pos s + n));
        cbn; rewrite ?Es; lia.
Qed.

End Invariants.

(** *** What [processBuf] and the loop of [start] keep *)

Section Runs.

Variables midBoundary endBoundary : Uint8Array.

Local Abbreviation stepOf := (step midBoundary endBoundary).
Local Abbreviation drainOf := (processBuf midBoundary endBoundary).

Lemma queue_extends_trans (a b c : list Part) :
  (exists n1, b = a ++ n1) -> (exists n2, c = b ++ n2) ->
  exists n, c = a ++ n.
Proof.
  intros [n1 ->] [n2 ->]. exists (n1 ++ n2). now rewrite app_assoc.
Qed.

Lemma step_queue_extends (s : PState) :
  exists new, queue (stepState (stepOf s)) = queue s ++ new.
Proof.
  destruct (step_appends midBoundary endBoundary s)
    as [_ [E|[_ (p & body & E & _)]]].
  - exists []. now rewrite app_nil_r.
  - rewrite E. cbn. now eexists.
Qed.

(** X9: [processBuf] never changes the buffer, and the parts it enqueues
    are added after those already there, which it leaves as they are. *)
Theorem processBuf_appends (fuel : nat) (s : PState) :
  buf (drainState (drainOf fuel s)) = buf s
  /\ exists new, queue (drainState (drainOf fuel s)) = queue s ++ new.
Proof.
  revert s. induction fuel as [|f IH]; intros s.
  - cbn. split; [reflexivity|]. exists []. now rewrite app_nil_r.
  - cbn [processBuf].
    destruct (step_appends midBoundary endBoundary s) as [Hb _].
    pose proof (step_queue_extends s) as Hq.
    destruct (stepOf s) as [s1|s1|e s1]; cbn in Hb, Hq |- *.
    + destruct (IH s1) as [Hb1 Hq1]. split; [congruence|].
      exact (queue_extends_trans _ _ _ Hq Hq1).
    + now split.
    + now split.
Qed.

Lemma processBuf_props (fuel : nat) :
  forall s : PState, Consistent s ->
  let s' := drainState (drainOf fuel s) in
  match drainOf fuel s with
  | Returned s1 | Looping s1 => Consistent s1
  | Threw e s1 => ConsistentAfter e s1
  end
  /\ (NoNegativeLength s' ->
      NoNegativeLength s
      /\ (0 < len midBoundary -> BodiesExact s ->
          BodiesExact s' /\ (passes s' <= passes s)%nat
          /\ ((passes s < fuel)%nat -> forall x, drainOf fuel s <> Looping x))).
Proof.
  induction fuel as [|f IH]; intros s HC s'.
  - subst s'. cbn. split; [exact HC|]. intros HN. split; [exact HN|].
    intros _ HB. split_and; trivial; lia.
  - subst s'. cbn [processBuf].
    pose proof (step_consistent midBoundary endBoundary s HC) as HC1.
    pose proof (step_back midBoundary endBoundary s HC) as Hback.
    pose proof (step_exact midBoundary endBoundary s) as Hex.
    destruct (stepOf s) as [s1|s1|e s1]; cbn in HC1, Hback, Hex |- *.
    + destruct (IH s1 HC1) as [HC' Hrest]. cbv zeta in HC', Hrest.
      split; [exact HC'|]. intros HN.
      destruct (Hrest HN) as [HN1 Hrest1].
      specialize (Hback HN1). split; [exact Hback|].
      intros Hm HB. destruct (Hex Hm HC Hback HB) as (HB1 & _ & Hlt).
      destruct (Hrest1 Hm HB1) as (HB' & Hle & Hloop).
      split_and; trivial; [lia|].
      intros Hf. apply Hloop. lia.
    + split; [exact HC1|]. intros HN. specialize (Hback HN).
      split; [exact Hback|]. intros Hm HB.
      destruct (Hex Hm HC Hback HB) as (HB1 & _ & Hle).
      split_and; trivial. discriminate.
    + split; [exact HC1|]. intros HN. specialize (Hback HN).
      split; [exact Hback|]. intros Hm HB.
      destruct (Hex Hm HC Hback HB) as (HB1 & _ & Hle).
      split_and; trivial. discriminate.
Qed.

Lemma passes_addChunk (s : PState) (c b : Uint8Array) :
  0 <= pos s <= len (buf s) -> addChunk s c = Some b ->
  passes {| pos := 0; buf := b; state := state s; headers := headers s;
            contentLength := contentLength s; queue := queue s |}
  = (passes s + List.length c)%nat.
Proof.
  intros Hp Ea. rewrite (addChunk_pending s c Hp) in Ea.
  injection Ea as <-. unfold passes. cbn.
  rewrite Z.sub_0_r, len_app, len_skipn by trivial.
  pose proof (len_nonneg c). unfold len in *. lia.
Qed.

Lemma mainLoop_props (fuel : nat) :
  forall (chunks : list Uint8Array) (s : PState) (nreads : nat),
  Consistent s ->
  let r := mainLoop midBoundary endBoundary fuel chunks s nreads in
  ConsistentEnd (outcome r) (final r) /\ emitted r = queue (final r)
  /\ (NoNegativeLength (final r) ->
      NoNegativeLength s
      /\ (0 < len midBoundary -> BodiesExact s ->
          (forall p, In p (emitted r) ->
                     declared p = Some (len (part_body p)))
          /\ ((passes s + List.length (List.concat chunks) < fuel)%nat ->
              outcome r <> Hung))).
Proof.
  induction chunks as [|c rest IH]; intros s nreads HC r.
  - subst r. cbn [mainLoop].
    destruct (trimNewlines _ _ _ _) as [p k].
    cbn [final emitted outcome].
    destruct (consistent_same s (set_pos s p)) as [H1 H2]; trivial.
    split; [destruct (_ || _); now apply H1|]. split; [reflexivity|].
    intros HN. split; [now apply H2|].
    intros Hm [_ HB]. split; [exact HB|].
    intros _. destruct (_ || _); discriminate.
  - subst r. cbn [mainLoop].
    destruct (addChunk s c) as [b|] eqn:Ea.
    2:{ cbn. split; [exact HC|]. split; [reflexivity|].
        intros HN. split; [exact HN|]. intros Hm HB.
        rewrite (addChunk_pending s c (proj1 HB)) in Ea. discriminate. }
    set (s1 := {| pos := 0; buf := b; state := state s;
                  headers := headers s; contentLength := contentLength s;
                  queue := queue s |}).
    destruct (consistent_same s s1) as [H1 H2]; trivial.
    specialize (H1 HC).
    assert (HB1 : BodiesExact s -> BodiesExact s1).
    { intros [_ HB]. split; [|exact HB]. cbn. pose proof (len_nonneg b).
      lia. }
    destruct (processBuf_props fuel s1 H1) as [HC' Hrest].
    cbv zeta in HC', Hrest. simpl List.concat. rewrite length_app.
    destruct (drainOf fuel s1) as [s'|e s'|s'] eqn:Ed;
      cbn [drainState] in Hrest.
    + destruct (IH s' (S nreads) HC') as (I1 & I2 & I3).
      split; [exact I1|]. split; [exact I2|]. intros HN.
      destruct (I3 HN) as [HN' I4]. destruct (Hrest HN') as [HN1 Hrest1].
      split; [now apply H2|]. intros Hm HB.
      destruct (Hrest1 Hm (HB1 HB)) as (HB' & Hle & _).
      destruct (I4 Hm HB') as [I5 I6]. split; [exact I5|].
      intros Hf. apply I6.
      pose proof (passes_addChunk s c b (proj1 HB) Ea) as Hp.
      fold s1 in Hp. lia.
    + cbn [final emitted outcome]. split; [exact HC'|].
      split; [reflexivity|]. intros HN.
      destruct (Hrest HN) as [HN1 Hrest1].
      split; [now apply H2|]. intros Hm HB.
      destruct (Hrest1 Hm (HB1 HB)) as (HB' & _ & _).
      split; [apply HB'|]. discriminate.
    + cbn [final emitted outcome]. split; [exact HC'|].
      split; [reflexivity|]. intros HN.
      destruct (Hrest HN) as [HN1 Hrest1].
      split; [now apply H2|]. intros Hm HB.
      destruct (Hrest1 Hm (HB1 HB)) as (HB' & _ & Hloop).
      split; [apply HB'|]. intros Hf. exfalso.
      pose proof (passes_addChunk s c b (proj1 HB) Ea) as Hp.
      fold s1 in Hp.
      assert (Hlt : (passes s1 < fuel)%nat) by lia.
      exact (Hloop Hlt s' eq_refl).
Qed.

End Runs.

(** *** Every run of [start] *)

Lemma initial_props :
  Consistent initial /\ BodiesExact initial /\ passes initial = O.
Proof.
  unfold Consistent, BodiesExact, initial. cbn. split_and; trivial;
    try (intros p []); try (unfold len; simpl; lia).
Qed.

Lemma len_midBoundaryOf (b : JSString) : 0 < len (midBoundaryOf b).
Proof.
  rewrite midBoundaryOf_eq, !len_cons.
  pose proof (len_nonneg (encode b ++ [CR; LF])). lia.
Qed.

Lemma start_props (fuel : nat) (ct : JSString) (chunks : list Uint8Array) :
  let r := start fuel ct chunks in
  ConsistentEnd (outcome r) (final r) /\ emitted r = queue (final r)
  /\ (NoNegativeLength (final r) ->
      (forall p, In p (emitted r) ->
                 declared p = Some (len (part_body p)))
      /\ ((List.length (List.concat chunks) < fuel)%nat ->
          outcome r <> Hung)).
Proof.
  intros r. subst r. unfold start.
  destruct initial_props as (HC & HB & Hp).
  destruct (getBoundary ct) as [b|].
  - destruct (mainLoop_props (midBoundaryOf b) (endBoundaryOf b) fuel chunks
                initial O HC) as (H1 & H2 & H3).
    cbv zeta in H1, H2, H3. split_and; trivial.
    intros HN. destruct (H3 HN) as [_ H4].
    specialize (H4 (len_midBoundaryOf b) HB). rewrite Hp in H4. exact H4.
  - cbn. split_and; trivial. intros _. split; [intros p []|discriminate].
Qed.


(** The run that ends with 'missing/invalid part Content-Length' on the
    value "abc": [contentLength] has been assigned the NaN before the
    throw. *)
Lemma invalid_length_leaves_NaN (fuel : nat) :
  let r := start (10 + fuel) Examples.ct [not_a_number] in
  outcome r = Errored InvalidContentLength
  /\ state (final r) = STATE_HEADERS
  /\ headers (final r) = Some [(lit "Content-Length", lit "abc")]
  /\ contentLength (final r) = Some None.
Proof. vm_compute. repeat split. Qed.


(** X11: in every run in which no part declares a negative length, each
    part emitted has a body of exactly the number of bytes that its
    Content-Length declares. *)
Theorem bodies_have_declared_length (fuel : nat) (ct : JSString)
  (chunks : list Uint8Array) :
  let r := start fuel ct chunks in
  NoNegativeLength (final r) ->
  forall p, In p (emitted r) ->
    exists h, part_headers p = Some h
              /\ parseContentLength h = Some (len (part_body p)).
Proof.
  intros r HN p Hin.
  destruct (start_props fuel ct chunks) as (_ & _ & H). fold r in H.
  destruct (H HN) as [H1 _]. specialize (H1 p Hin). unfold declared in H1.
  destruct (part_headers p) as [h|]; [now exists h|discriminate].
Qed.

Lemma worked_no_negative_length :
  NoNegativeLength (final (start 40 Examples.ct [Examples.worked])).
Proof.
  assert (E : final (start 40 Examples.ct [Examples.worked])
              = {| pos := 36; buf := Examples.worked;
                   state := STATE_BOUNDARY; headers := None;
                   contentLength := None;
                   queue := [Examples.worked_part] |})
    by (vm_compute; reflexivity).
  rewrite E. split.
  - cbn [queue In]. intros p n [<-|[]] H.
    assert (E5 : declared Examples.worked_part = Some 5)
      by (vm_compute; reflexivity).
    rewrite E5 in H. injection H as <-. lia.
  - cbn [state]. discriminate.
Qed.

Lemma bodies_have_declared_length_witness :
  exists h, part_headers Examples.worked_part = Some h
            /\ parseContentLength h = Some 5.
Proof.
  apply (bodies_have_declared_length 40 Examples.ct [Examples.worked]
           worked_no_negative_length Examples.worked_part).
  vm_compute. left. reflexivity.
Defined.

(** X12: [start] always comes to an end when no part declares a negative
    length: with as many passes allowed to each call of [processBuf] as the
    source delivers bytes, and one more, no call is left looping. *)
Theorem terminates_without_negative_length (fuel : nat) (ct : JSString)
  (chunks : list Uint8Array) :
  let r := start fuel ct chunks in
  (List.length (List.concat chunks) < fuel)%nat ->
  NoNegativeLength (final r) ->
  outcome r <> Hung.
Proof.
  intros r Hf HN.
  destruct (start_props fuel ct chunks) as (_ & _ & H). fold r in H.
  destruct (H HN) as [_ H1]. now apply H1.
Qed.

Lemma terminates_without_negative_length_witness :
  outcome (start 40 Examples.ct [Examples.worked]) <> Hung.
Proof.
  apply (terminates_without_negative_length 40 Examples.ct
           [Examples.worked]).
  - vm_compute. lia.
  - exact worked_no_negative_length.
Defined.

(** *** The errors of a run, and its reads *)

Lemma skipBlank_le (n : nat) (b : Uint8Array) (p : Z) :
  p <= len b -> skipBlank n b p <= len b.
Proof.
  revert p. induction n as [|n IH]; intros p Hp; simpl; trivial.
  rewrite len_blankLine.
  destruct (Z.geb_spec (len b) (p + 2)); simpl; trivial.
  destruct (compareArrays _ _); trivial. apply IH. lia.
Qed.

Lemma indexOf_lt (b : Uint8Array) (x p : Z) :
  indexOf b x p = -1 \/ 0 <= indexOf b x p < len b.
Proof.
  unfold indexOf.
  set (k := if p <? 0 then Z.max (len b + p) 0 else p).
  destruct (Spec.indexOfAux_range x (skipn (Z.to_nat k) b) k) as [E|E];
    [now left|right].
  assert (Hk : 0 <= k \/ len b < k).
  { subst k. destruct (Z.ltb_spec p 0); lia. }
  unfold len in *. rewrite length_skipn in E. lia.
Qed.

(** A slice that has the length asked for ends inside the array. *)
Lemma slice_len_bound (b : Uint8Array) (p k : Z) :
  p <= len b -> 0 <= k -> len (slice b p (p + k)) = k -> p + k <= len b.
Proof.
  intros Hp Hk. unfold slice, relIndex, len.
  rewrite length_firstn, length_skipn. unfold len in Hp.
  destruct (Z.ltb_spec p 0), (Z.ltb_spec (p + k) 0); lia.
Qed.

Lemma trimNewlines_sum (n : nat) (b : Uint8Array) :
  forall p k p' k' : Z,
  trimNewlines n b p k = (p', k') -> 0 <= k -> p' + k' = p + k /\ 0 <= k'.
Proof.
  induction n as [|n IH]; intros p k p' k' E Hk.
  - cbn in E. injection E as <- <-. now split.
  - cbn [trimNewlines] in E.
    destruct (Z.gtb_spec k 0) as [Hgt|Hle]; cbn [andb] in E.
    + destruct (existsb _ _).
      * apply IH in E; [|lia]. lia.
      * injection E as <- <-. now split.
    + injection E as <- <-. now split.
Qed.

Section Bounds.

Variables midBoundary endBoundary : Uint8Array.

Local Abbreviation stepOf := (step midBoundary endBoundary).
Local Abbreviation drainOf := (processBuf midBoundary endBoundary).

(** No pass moves the cursor beyond the end of the buffer, whatever the
    bytes and the length declared. *)
Lemma step_upper (s : PState) :
  pos s <= len (buf s) ->
  pos (stepState (stepOf s)) <= len (buf (stepState (stepOf s))).
Proof.
  intros Hp. unfold step. destruct (state s).
  - unfold stepBoundary.
    pose proof (skipBlank_le (Z.to_nat (len (buf s) - pos s)) (buf s)
                  (pos s) Hp) as Hk.
    set (p := skipBlank _ _ _) in *. cbn [buf set_pos].
    pose proof (len_nonneg midBoundary). pose proof (len_nonneg endBoundary).
    destruct (Z.ltb_spec (len (buf s)) (p + len midBoundary));
      [exact Hk|].
    destruct (compareArrays (slice (buf s) p (p + len midBoundary))
                midBoundary); simpl negb; cbv iota.
    + cbn. lia.
    + destruct (compareArrays (slice (buf s) p (p + len endBoundary))
                  endBoundary) eqn:E; [|exact Hk].
      apply compareArrays_eq in E. cbn.
      apply slice_len_bound; trivial. now rewrite E.
  - unfold stepHeaders.
    destruct (indexOf_lt (buf s) CR (pos s)) as [E|E].
    + rewrite E. cbn. exact Hp.
    + set (cr := indexOf (buf s) CR (pos s)) in *.
      destruct (Z.eqb_spec cr (-1)) as [E1|E1]; [lia|].
      destruct (Z.eqb_spec (len (buf s)) (cr + 1)) as [E2|E2];
        [cbn; exact Hp|].
      simpl orb. cbv iota.
      destruct (negb (is_code (at_ (buf s) (cr + 1)) LF)); [exact Hp|].
      cbv zeta. cbn [headers set_pos pos buf queue state contentLength].
      assert (Hr : cr + 2 <= len (buf s)) by lia.
      destruct (eqb_list _ []).
      * destruct (option_map parseContentLength (headers s)) as [[k|]|];
          exact Hr.
      * destruct (_ || _); [exact Hr|].
        destruct (headers s) as [h|]; [|exact Hr].
        destruct (Headers.append h _ _); exact Hr.
  - unfold stepBody. destruct (toNumber (contentLength s)) as [n|];
      [|exact Hp].
    destruct (Z.ltb_spec (len (buf s)) (pos s + n)); [exact Hp|].
    cbn. lia.
Qed.

(** The errors that a pass throws. *)
Lemma step_errors (s s' : PState) (e : Error) :
  stepOf s = Throw e s' ->
  e <> RangeError /\ e <> TruncatedStream /\ e <> InvalidContentType.
Proof.
  unfold step. destruct (state s).
  - unfold stepBoundary. set (p := skipBlank _ _ _).
    destruct (_ <? _); [discriminate|].
    destruct (negb _); [|discriminate].
    destruct (compareArrays _ _); [discriminate|].
    intros E. injection E as <- _. split_and; discriminate.
  - unfold stepHeaders.
    destruct (_ || _); [discriminate|].
    destruct (negb _);
      [intros E; injection E as <- _; split_and; discriminate|].
    cbv zeta. destruct (eqb_list _ []).
    + destruct (option_map _ _) as [[k|]|]; [discriminate| |];
        intros E; injection E as <- _; split_and; discriminate.
    + destruct (_ || _);
        [intros E; injection E as <- _; split_and; discriminate|].
      cbn [headers set_pos].
      destruct (headers s) as [h|];
        [|intros E; injection E as <- _; split_and; discriminate].
      destruct (Headers.append h _ _); [discriminate|].
      intros E; injection E as <- _; split_and; discriminate.
  - unfold stepBody. destruct (toNumber _); [|discriminate].
    destruct (_ <? _); discriminate.
Qed.

Lemma processBuf_upper (fuel : nat) :
  forall s : PState, pos s <= len (buf s) ->
  pos (drainState (drainOf fuel s)) <= len (buf (drainState (drainOf fuel s)))
  /\ forall e s', drainOf fuel s = Threw e s' ->
       e <> RangeError /\ e <> TruncatedStream /\ e <> InvalidContentType.
Proof.
  induction fuel as [|f IH]; intros s Hp.
  - cbn. split; [exact Hp|discriminate].
  - cbn [processBuf]. pose proof (step_upper s Hp) as H1.
    pose proof (step_errors s) as H2.
    destruct (stepOf s) as [s1|s1|e s1]; cbn in H1 |- *.
    + exact (IH s1 H1).
    + split; [exact H1|discriminate].
    + split; [exact H1|]. intros e' s' E. injection E as <- <-.
      exact (H2 s1 e eq_refl).
Qed.

(** Merging a chunk into the buffer never fails when the cursor is within
    the buffer. *)
Lemma set_fits (target src : Uint8Array) (offset : Z) :
  0 <= offset -> offset + len src <= len target ->
  exists r, set target src offset = Some r /\ len r = len target.
Proof.
  intros Ho Hl. unfold set.
  destruct (Z.ltb_spec offset 0); [lia|].
  destruct (Z.ltb_spec (len target) (offset + len src)); [lia|].
  cbn [orb]. eexists. split; [reflexivity|].
  pose proof (len_nonneg src).
  rewrite !len_app. unfold len in *.
  rewrite length_firstn, length_skipn. lia.
Qed.

Lemma addChunk_fits (s : PState) (value : Uint8Array) :
  pos s <= len (buf s) -> exists b, addChunk s value = Some b.
Proof.
  intros Hp. unfold addChunk.
  destruct (Z.eqb_spec (len (buf s) - pos s) 0); [now eexists|].
  pose proof (len_nonneg value) as Hv.
  unfold newUint8Array.
  destruct (Z.ltb_spec (len (buf s) - pos s + len value) 0); [lia|].
  assert (Hs : len (sliceFrom (buf s) (pos s)) <= len (buf s) - pos s).
  { unfold sliceFrom, slice, relIndex, len.
    rewrite length_firstn, length_skipn. unfold len in Hp.
    destruct (Z.ltb_spec (pos s) 0),
      (Z.ltb_spec (Z.of_nat (List.length (buf s))) 0); lia. }
  pose proof (len_nonneg (sliceFrom (buf s) (pos s))) as Hs0.
  assert (Hr : len (repeat 0 (Z.to_nat (len (buf s) - pos s + len value)))
               = len (buf s) - pos s + len value).
  { unfold len. rewrite repeat_length. unfold len in *. lia. }
  destruct (set_fits (repeat 0 (Z.to_nat (len (buf s) - pos s + len value)))
              (sliceFrom (buf s) (pos s)) 0) as (r1 & -> & Hl1); [lia..|].
  destruct (set_fits r1 value (len (buf s) - pos s)) as (r2 & -> & _);
    [lia..|].
  now eexists.
Qed.

Lemma mainLoop_errors (fuel : nat) :
  forall (chunks : list Uint8Array) (s : PState) (nreads : nat),
  pos s <= len (buf s) ->
  let r := mainLoop midBoundary endBoundary fuel chunks s nreads in
  pos (final r) <= len (buf (final r))
  /\ outcome r <> Errored RangeError
  /\ outcome r <> Errored InvalidContentType
  /\ (S nreads <= reads r <= S nreads + List.length chunks)%nat
  /\ (reads r = (S nreads + List.length chunks)%nat
      <-> outcome r = Closed \/ outcome r = Errored TruncatedStream).
Proof.
  induction chunks as [|c rest IH]; intros s nreads Hp r; subst r.
  - cbn [mainLoop].
    destruct (trimNewlines _ _ _ _) as [p buffered] eqn:Et.
    apply trimNewlines_sum in Et; [|lia].
    cbn [outcome reads List.length final pos buf set_pos].
    split_and; try lia; try (destruct (_ || _); discriminate).
    split; intros _; [|lia]. destruct (_ || _); [now right|now left].
  - cbn [mainLoop].
    destruct (addChunk_fits s c Hp) as [b ->].
    set (s0 := {| pos := 0; buf := b; state := state s;
                  headers := headers s; contentLength := contentLength s;
                  queue := queue s |}).
    assert (Hp0 : pos s0 <= len (buf s0)) by apply len_nonneg.
    destruct (processBuf_upper fuel s0 Hp0) as [Hu He].
    destruct (drainOf fuel s0) as [s'|e s'|s'] eqn:Ed; cbn in Hu.
    + destruct (IH s' (S nreads) Hu) as (H0 & H1 & H2 & H3 & H4).
      cbv zeta in H0, H1, H2, H3, H4. cbn [List.length].
      split_and; trivial; try lia.
      split; intros E; [apply H4; lia|apply H4 in E; lia].
    + destruct (He e s' eq_refl) as (E1 & E2 & E3).
      cbn [outcome reads List.length final].
      split_and; try congruence; try lia.
      split; [lia|]. intros [E|E]; [discriminate|congruence].
    + cbn [outcome reads List.length final].
      split_and; try discriminate; try lia.
      split; [lia|]. intros [E|E]; discriminate.
Qed.

End Bounds.

(** X13: the cursor never passes the end of the buffer, whatever the
    source delivers and whatever lengths the parts declare; so merging a
    chunk into the buffer never fails, and no run ends with a RangeError,
    not even one in which a negative length has moved the cursor back.
    And with a boundary in the content type, no run ends with "Invalid
    content type". *)
Theorem cursor_never_past_the_end (fuel : nat) (ct : JSString)
  (chunks : list Uint8Array) :
  let r := start fuel ct chunks in
  pos (final r) <= len (buf (final r))
  /\ outcome r <> Errored RangeError
  /\ (outcome r = Errored InvalidContentType -> getBoundary ct = None).
Proof.
  intros r. subst r. unfold start.
  destruct (getBoundary ct) as [b|].
  - assert (Hp : pos initial <= len (buf initial)) by (cbn; lia).
    destruct (mainLoop_errors (midBoundaryOf b) (endBoundaryOf b) fuel chunks
                initial O Hp) as (H0 & H1 & H2 & _).
    cbv zeta in H0, H1, H2. split_and; trivial. intros E. contradiction.
  - cbn. split_and; trivial; [lia|discriminate].
Qed.

(** X14: with a boundary, [start] reads the source at least once and at
    most once more than it has chunks; it issues that last read, the one
    that reports the end of the source, exactly when the run ends with the
    stream closed or with "Truncated multipart stream": after any other
    error, and when [processBuf] does not come back, the source is not
    read again. *)
Theorem reads_until_the_end (fuel : nat) (ct : JSString)
  (chunks : list Uint8Array) :
  let r := start fuel ct chunks in
  match getBoundary ct with
  | None => reads r = O
  | Some _ =>
      (1 <= reads r <= 1 + List.length chunks)%nat
      /\ (reads r = (1 + List.length chunks)%nat
          <-> outcome r = Closed \/ outcome r = Errored TruncatedStream)
  end.
Proof.
  intros r. subst r. unfold start.
  destruct (getBoundary ct) as [b|]; [|reflexivity].
  assert (Hp : pos initial <= len (buf initial)) by (cbn; lia).
  destruct (mainLoop_errors (midBoundaryOf b) (endBoundaryOf b) fuel chunks
              initial O Hp) as (_ & _ & _ & H3 & H4).
  cbv zeta in H3, H4. split; trivial.
Qed.

(** *** A stream that is cut short *)

Section Prefix.

Variable tok : Uint8Array.

Let midB : Uint8Array := 45 :: 45 :: tok ++ [CR; LF].
Let endB : Uint8Array := 45 :: 45 :: tok ++ [45; 45].


End Prefix.



(** *** The TypeError *)

(** X16: in a state in which the variables are as their comments say, a
    pass throws a TypeError only in READING_HEADERS and only from
    [headers.append], which has rejected the name or the value of the
    line; [headers] is not null there, and nothing is enqueued. *)
Theorem type_error_from_append (midBoundary endBoundary : Uint8Array)
  (s s' : PState) :
  Consistent s ->
  step midBoundary endBoundary s = Throw TypeError s' ->
  state s = STATE_HEADERS
  /\ queue s' = queue s
  /\ exists h, headers s = Some h
     /\ let line := decode (slice (buf s) (pos s)
                              (indexOf (buf s) CR (pos s))) in
        let colon := strIndexOf line (lit ":") 0 in
        Headers.append h (substring line 0 colon)
          (substringFrom line (colon + 2)) = None.
Proof.
  intros [HC _]. unfold step. destruct (state s) eqn:Es.
  - unfold stepBoundary. set (p := skipBlank _ _ _).
    destruct (_ <? _); [discriminate|].
    destruct (negb _); [|discriminate].
    destruct (compareArrays _ _); discriminate.
  - destruct HC as [Hh _]. destruct (headers s) as [h|] eqn:Eh;
      [|contradiction].
    unfold stepHeaders.
    destruct (_ || _); [discriminate|].
    destruct (negb _); [discriminate|].
    cbv zeta. cbn [headers set_pos]. rewrite Eh. cbn [option_map].
    destruct (eqb_list _ []).
    + destruct (parseContentLength h); discriminate.
    + destruct (_ || _); [discriminate|].
      destruct (Headers.append h _ _) eqn:Ea; [discriminate|].
      intros E. injection E as <-. cbn [queue].
      split_and; trivial. exists h. split; [reflexivity|exact Ea].
  - unfold stepBody. destruct (toNumber _); [|discriminate].
    destruct (_ <? _); discriminate.
Qed.

Lemma type_error_from_append_witness :
  exists h, headers (Examples.in_headers (lit " foo")) = Some h
  /\ Headers.append h [] (lit "foo") = None.
Proof.
  destruct (type_error_from_append (midBoundaryOf (lit "X"))
              (endBoundaryOf (lit "X")) (Examples.in_headers (lit " foo"))
              (set_pos (Examples.in_headers (lit " foo")) 11))
    as (_ & _ & h & Eh & Ea).
  - split; [cbn; split; [discriminate|reflexivity]|intros p []].
  - vm_compute. reflexivity.
  - exists h. split; [exact Eh|]. exact Ea.
Defined.

End Extra.
